(** * Aidon AMS exporter: the COSEM decoder of [pkg/protocol] and the
      producer loop of [main.go]

    The Go package reads a byte record through an [io.Reader] (a
    [bytes.Reader] in [main.go]) and returns values of type [any].  Here the
    reader is its unread bytes, every function returns the pair Go returns
    (value and error) together with the reader it leaves behind, and [any] is
    an inductive type with one constructor per dynamic type the package
    produces. *)

From Stdlib Require Import ZArith NArith String Ascii DecimalString.
From Stdlib.Strings Require Import Byte.
From stdpp Require Import gmap strings list fin_maps.

Local Open Scope nat_scope.

Set Warnings "-register-all".

(** ** Errors, values, readers *)

(** [io.EOF], [io.ErrUnexpectedEOF], and the errors made by [fmt.Errorf],
    which are told apart by their text only. *)
Inductive error : Type :=
  | EOF
  | ErrUnexpectedEOF
  | Errorf (msg : string).

(** The dynamic types a decoded [any] can hold: [nil], [[]any], [string]
    (from [ParseCode], [ParseString] and [ParseEnum] alike), and the six
    fixed-width integer types. *)
Inductive any : Type :=
  | Nil
  | Slice (arr : list any)
  | Str (s : string)
  | Int8 (i : Z)
  | Int16 (i : Z)
  | Int32 (i : Z)
  | Uint8 (i : Z)
  | Uint16 (i : Z)
  | Uint32 (i : Z).

(** The unread part of a [bytes.Reader]. *)
Definition reader : Type := list byte.

(** What a Go function [func(r io.Reader) (A, error)] gives back: both
    returned values, and the reader after the call. *)
Definition res (A : Type) : Type := (A * option error * reader)%type.

Definition byte_val (b : byte) : N := Byte.to_N b.

(** [buf[i]] on a buffer made by [make([]byte, n)]. *)
Definition at_ (buf : list byte) (i : nat) : byte := nth i buf x00.

(** ** [io.ReadFull] on a [bytes.Reader]

    A zero-length buffer is filled without touching the reader.  An exhausted
    reader gives [io.EOF]; a reader with fewer bytes than the buffer gives
    them all and [io.ErrUnexpectedEOF].  The buffer comes back as Go leaves
    it: zeroes where nothing was read. *)
Definition ReadFull (len : nat) (r : reader) : res (list byte) :=
  match len, r with
  | O, _ => ([], None, r)
  | _, [] => (replicate len x00, Some EOF, [])
  | _, _ =>
      if len <=? length r
      then (take len r, None, drop len r)
      else (r ++ replicate (len - length r) x00, Some ErrUnexpectedEOF, [])
  end.

(** ** [fmt.Sprintf] with [%d] on a byte *)
Definition fmt_d (b : byte) : string :=
  NilEmpty.string_of_uint (N.to_uint (byte_val b)).

(** [fmt.Sprintf("%d-%d:%d.%d.%d.%d", buf[0], ..., buf[5])]. *)
Definition Sprintf_code (buf : list byte) : string :=
  fmt_d (at_ buf 0) +:+ "-" +:+ fmt_d (at_ buf 1) +:+ ":" +:+
  fmt_d (at_ buf 2) +:+ "." +:+ fmt_d (at_ buf 3) +:+ "." +:+
  fmt_d (at_ buf 4) +:+ "." +:+ fmt_d (at_ buf 5).

(** ** Scalar decoders *)

Definition ParseString (r : reader) : res string :=
  match ReadFull 1 r with
  | (_, Some err, r1) => (EmptyString, Some err, r1)
  | (buf, None, r1) =>
      let strlen := N.to_nat (byte_val (at_ buf 0)) in
      match ReadFull strlen r1 with
      | (_, Some err, r2) => (EmptyString, Some err, r2)
      | (buf, None, r2) => (string_of_list_byte buf, None, r2)
      end
  end.

Definition ParseCode (r : reader) : res string :=
  match ReadFull 1 r with
  | (_, Some err, r1) => (EmptyString, Some err, r1)
  | (buf, None, r1) =>
      let strlen := N.to_nat (byte_val (at_ buf 0)) in
      match ReadFull strlen r1 with
      | (_, Some err, r2) => (EmptyString, Some err, r2)
      | (buf, None, r2) =>
          if negb (strlen =? 6)
          then (EmptyString, Some (Errorf "not a code"), r2)
          else (Sprintf_code buf, None, r2)
      end
  end.

(** [binary.BigEndian.UintN]: shifts and ors of the bytes. *)
Definition bz (bs : list byte) (i : nat) : Z := Z.of_N (byte_val (at_ bs i)).

Definition BigEndian_Uint16 (bs : list byte) : Z :=
  Z.lor (bz bs 1) (Z.shiftl (bz bs 0) 8).

Definition BigEndian_Uint32 (bs : list byte) : Z :=
  Z.lor (Z.lor (Z.lor (bz bs 3) (Z.shiftl (bz bs 2) 8))
               (Z.shiftl (bz bs 1) 16))
        (Z.shiftl (bz bs 0) 24).

(** The conversion [intN(x)] of an unsigned [N]-bit [x]: two's complement. *)
Definition to_signed (bits : Z) (u : Z) : Z :=
  if (2 ^ (bits - 1) <=? u)%Z then (u - 2 ^ bits)%Z else u.

(** [binary.Read(r, binary.BigEndian, &i)] for a fixed-size integer [i] of
    [size] bytes: [decode] is the assignment of the decoded bytes to [i],
    which stays zero when the read fails. *)
Definition binary_Read (size : nat) (decode : list byte → Z) (r : reader) : res Z :=
  match ReadFull size r with
  | (_, Some err, r1) => (0%Z, Some err, r1)
  | (bs, None, r1) => (decode bs, None, r1)
  end.

Definition wrap (c : Z → any) (x : res Z) : res any :=
  let '(i, err, r) := x in (c i, err, r).

Definition ParseUint8 (r : reader) : res any :=
  wrap Uint8 (binary_Read 1 (λ bs, bz bs 0) r).

Definition ParseUint16 (r : reader) : res any :=
  wrap Uint16 (binary_Read 2 BigEndian_Uint16 r).

Definition ParseUint32 (r : reader) : res any :=
  wrap Uint32 (binary_Read 4 BigEndian_Uint32 r).

Definition ParseInt8 (r : reader) : res any :=
  wrap Int8 (binary_Read 1 (λ bs, to_signed 8 (bz bs 0)) r).

Definition ParseInt16 (r : reader) : res any :=
  wrap Int16 (binary_Read 2 (λ bs, to_signed 16 (BigEndian_Uint16 bs)) r).

Definition ParseInt32 (r : reader) : res any :=
  wrap Int32 (binary_Read 4 (λ bs, to_signed 32 (BigEndian_Uint32 bs)) r).

Definition ParseEnum (r : reader) : res any :=
  match ReadFull 1 r with
  | (_, Some err, r1) => (Nil, Some err, r1)
  | (buf, None, r1) =>
      match byte_val (at_ buf 0) with
      | 27%N => (Str "W", None, r1)
      | 28%N => (Str "VA", None, r1)
      | 29%N => (Str "VAr", None, r1)
      | 30%N => (Str "Wh", None, r1)
      | 32%N => (Str "VArh", None, r1)
      | 33%N => (Str "A", None, r1)
      | 35%N => (Str "V", None, r1)
      | _ => (Str "", Some (Errorf ("unknown enum index " +:+ fmt_d (at_ buf 0))), r1)
      end
  end.

(** ** The recursive decoder

    [ParseAny] and [ParseArray] call each other.  [ParseArray] takes the
    element decoder as an argument; [ParseAny_fuel] ties the knot with a
    bound on the nesting depth, [None] meaning that the bound was reached.
    [ParseAny] gives it one more than the number of unread bytes, which is
    never reached (lemma [ParseAny_fuel_enough]): every level of nesting
    reads its tag byte first. *)

(** The loop [for i := 0; i < le; i++] of [ParseArray], with [n] iterations
    left: [arr[i]] is assigned before the error is looked at. *)
Fixpoint ParseArray_loop (elem : reader → option (res any))
    (n i : nat) (arr : list any) (r : reader) : option (res any) :=
  match n with
  | O => Some (Slice arr, None, r)
  | S n' =>
      match elem r with
      | None => None
      | Some (v, Some err, r') => Some (Slice (<[i:=v]> arr), Some err, r')
      | Some (v, None, r') => ParseArray_loop elem n' (S i) (<[i:=v]> arr) r'
      end
  end.

Definition ParseArray (elem : reader → option (res any)) (r : reader)
    : option (res any) :=
  match ReadFull 1 r with
  | (_, Some err, r1) => Some (Nil, Some err, r1)
  | (buf, None, r1) =>
      let le := N.to_nat (byte_val (at_ buf 0)) in
      ParseArray_loop elem le 0 (replicate le Nil) r1
  end.

Definition of_string (x : res string) : res any :=
  let '(s, err, r) := x in (Str s, err, r).

(** The [switch buf[0]] of [ParseAny]; [array] is the call [ParseArray(r)]. *)
Definition ParseAny_switch (array : reader → option (res any))
    (tag : byte) (r1 : reader) : option (res any) :=
  match byte_val tag with
  | 0%N => Some (Nil, None, r1)
  | 1%N | 2%N => array r1
  | 9%N => Some (of_string (ParseCode r1))
  | 10%N | 12%N => Some (of_string (ParseString r1))
  | 15%N => Some (ParseInt8 r1)
  | 16%N => Some (ParseInt16 r1)
  | 17%N => Some (ParseUint8 r1)
  | 18%N => Some (ParseUint16 r1)
  | 5%N => Some (ParseInt32 r1)
  | 6%N => Some (ParseUint32 r1)
  | 22%N => Some (ParseEnum r1)
  | _ => Some (Nil, Some (Errorf ("unrecognized datatype: " +:+ fmt_d tag)), r1)
  end.

Fixpoint ParseAny_fuel (fuel : nat) (r : reader) : option (res any) :=
  match fuel with
  | O => None
  | S fuel' =>
      match ReadFull 1 r with
      | (_, Some err, r1) => Some (Nil, Some err, r1)
      | (buf, None, r1) =>
          ParseAny_switch (ParseArray (ParseAny_fuel fuel')) (at_ buf 0) r1
      end
  end.

Definition ParseAny (r : reader) : res any :=
  match ParseAny_fuel (S (length r)) r with
  | Some x => x
  | None => (Nil, Some (Errorf "nesting bound reached"), r)
  end.

(** ** [ParseFlattened] *)

(** The loop [for _, item := range arr] with the map built so far; a [nil]
    map is [None]. *)
Fixpoint flatten_loop (arr : list any) (result : gmap string any)
    : option (gmap string any) * option error :=
  match arr with
  | [] => (Some result, None)
  | item :: rest =>
      match item with
      | Slice subarr =>
          if length subarr <? 2
          then (None, Some (Errorf "sub-level data does not contain at least two entries"))
          else
            match nth 0 subarr Nil with
            | Str key => flatten_loop rest (<[key := nth 1 subarr Nil]> result)
            | _ => (None, Some (Errorf "first entry not string type; unusable as key"))
            end
      | _ => (None, Some (Errorf "sub-level data not of array type"))
      end
  end.

Definition ParseFlattened (r : reader) : res (option (gmap string any)) :=
  match ParseAny r with
  | (_, Some err, r1) => (None, Some err, r1)
  | (Slice arr, None, r1) =>
      let '(m, err) := flatten_loop arr ∅ in (m, err, r1)
  | (_, None, r1) => (None, Some (Errorf "top-level structure not of array type"), r1)
  end.

(** A byte record written as numbers. *)
Definition byte_of (n : N) : byte :=
  match Byte.of_N n with Some b => b | None => x00 end.

Definition bytes (l : list N) : reader := map byte_of l.


(** ** The producer loop of [main.go]

    One iteration of the goroutine that reads frames: [err] is what
    [unf.Read(buf)] returned, [buf] the 1024-byte buffer after the call (the
    frame, and after it whatever earlier frames left there).  The channel
    [packets] is the list of the maps sent on it, oldest first; that a send
    blocks while 32 maps are waiting is not modelled. *)

Inductive hdlc_error : Type :=
  | hdlc_nil
  | hdlc_ErrResynced
  | hdlc_ErrAbort
  | hdlc_other.

Record pipeline : Type := mkPipeline {
  msgCounter : nat;
  resyncCounter : nat;
  abortCounter : nat;
  parseErrorCounter : nat;
  packets : list (option (gmap string any))
}.

Definition producer_iteration (err : hdlc_error) (buf : list byte)
    (st : pipeline) : pipeline :=
  match err with
  | hdlc_ErrResynced =>
      mkPipeline (msgCounter st) (S (resyncCounter st)) (abortCounter st)
                 (parseErrorCounter st) (packets st)
  | hdlc_ErrAbort =>
      mkPipeline (msgCounter st) (resyncCounter st) (S (abortCounter st))
                 (parseErrorCounter st) (packets st)
  | hdlc_nil =>
      match ParseFlattened (drop 17 buf) with
      | (_, Some _, _) =>
          mkPipeline (msgCounter st) (resyncCounter st) (abortCounter st)
                     (S (parseErrorCounter st)) (packets st)
      | (packet, None, _) =>
          mkPipeline (S (msgCounter st)) (resyncCounter st) (abortCounter st)
                     (parseErrorCounter st) (packets st ++ [packet])
      end
  | hdlc_other => st
  end.

(** The iterations of a run, one per call of [unf.Read]. *)
Definition producer_run (reads : list (hdlc_error * list byte))
    (st : pipeline) : pipeline :=
  foldl (λ st '(err, buf), producer_iteration err buf st) st reads.

Definition pipeline_start : pipeline := mkPipeline 0 0 0 0 [].

(** ** The wire layout of one value

    [wire p v]: the bytes [p] are one tag byte and the payload that the tag
    and the length or count byte after it declare, and [v] is the value they
    stand for.  A sequence is its tag, its count, and the layouts of exactly
    that many members one after the other. *)
Inductive wire : list byte → any → Prop :=
  | wire_null : wire [x00] Nil
  | wire_seq tag cnt ps vs :
      byte_val tag = 1%N ∨ byte_val tag = 2%N →
      N.to_nat (byte_val cnt) = length vs →
      Forall2 wire ps vs →
      wire (tag :: cnt :: concat ps) (Slice vs)
  | wire_code bs :
      length bs = 6 →
      wire (x09 :: x06 :: bs) (Str (Sprintf_code bs))
  | wire_text tag n bs :
      byte_val tag = 10%N ∨ byte_val tag = 12%N →
      N.to_nat (byte_val n) = length bs →
      wire (tag :: n :: bs) (Str (string_of_list_byte bs))
  | wire_int8 bs :
      length bs = 1 → wire (x0f :: bs) (Int8 (to_signed 8 (bz bs 0)))
  | wire_int16 bs :
      length bs = 2 → wire (x10 :: bs) (Int16 (to_signed 16 (BigEndian_Uint16 bs)))
  | wire_uint8 bs :
      length bs = 1 → wire (x11 :: bs) (Uint8 (bz bs 0))
  | wire_uint16 bs :
      length bs = 2 → wire (x12 :: bs) (Uint16 (BigEndian_Uint16 bs))
  | wire_int32 bs :
      length bs = 4 → wire (x05 :: bs) (Int32 (to_signed 32 (BigEndian_Uint32 bs)))
  | wire_uint32 bs :
      length bs = 4 → wire (x06 :: bs) (Uint32 (BigEndian_Uint32 bs))
  | wire_enum b v :
      ParseEnum [b] = (v, None, []) → wire [x16; b] v.

(** The tags of the [switch] in [ParseAny]. *)
Definition known_tags : list N := [0; 1; 2; 5; 6; 9; 10; 12; 15; 16; 17; 18; 22]%N.

Definition known_tag (t : N) : bool := existsb (N.eqb t) known_tags.

(** The case of [ParseAny_switch] that a tag byte selects. *)
Inductive tag_step (array : reader → option (res any)) (b : byte) (r : reader)
    (x : option (res any)) : Prop :=
  | step_null : b = x00 → x = Some (Nil, None, r) → tag_step array b r x
  | step_array : b = x01 ∨ b = x02 → x = array r → tag_step array b r x
  | step_code : b = x09 → x = Some (of_string (ParseCode r)) → tag_step array b r x
  | step_text : b = x0a ∨ b = x0c → x = Some (of_string (ParseString r)) →
      tag_step array b r x
  | step_int8 : b = x0f → x = Some (ParseInt8 r) → tag_step array b r x
  | step_int16 : b = x10 → x = Some (ParseInt16 r) → tag_step array b r x
  | step_uint8 : b = x11 → x = Some (ParseUint8 r) → tag_step array b r x
  | step_uint16 : b = x12 → x = Some (ParseUint16 r) → tag_step array b r x
  | step_int32 : b = x05 → x = Some (ParseInt32 r) → tag_step array b r x
  | step_uint32 : b = x06 → x = Some (ParseUint32 r) → tag_step array b r x
  | step_enum : b = x16 → x = Some (ParseEnum r) → tag_step array b r x
  | step_other : known_tag (byte_val b) = false →
      x = Some (Nil, Some (Errorf ("unrecognized datatype: " +:+ fmt_d b)), r) →
      tag_step array b r x.

(** A decoder never gives bytes back. *)
Definition elem_shrinks (elem : reader → option (res any)) : Prop :=
  ∀ r v e r', elem r = Some (v, e, r') → length r' ≤ length r.

(** A successful decode read a prefix laid out as [wire] says, and reads the
    same prefix whatever follows it. *)
Definition elem_exact (elem : reader → option (res any)) : Prop :=
  ∀ r v r', elem r = Some (v, None, r') →
    ∃ p, r = p ++ r' ∧ wire p v ∧ ∀ s, elem (p ++ s) = Some (v, None, s).

(** Arrays of one member nested [d] deep around a null, and their bytes. *)
Fixpoint nested_bytes (d : nat) : list byte :=
  match d with
  | O => [x00]
  | S d' => x01 :: x01 :: nested_bytes d'
  end.

Fixpoint nested_value (d : nat) : any :=
  match d with
  | O => Nil
  | S d' => Slice [nested_value d']
  end.

(** The unit codes and names, as the specification lists them. *)
Definition spec_unit_table : list (N * string) :=
  [(27, "W"); (28, "VA"); (29, "VAr"); (30, "Wh"); (32, "VArh"); (33, "A");
   (35, "V")]%N.

Definition spec_unit (code : N) : option string :=
  snd <$> find (λ e, N.eqb (fst e) code) spec_unit_table.

(** What the loop of [ParseFlattened] asks of a member of the top-level
    array: an array of at least two members whose first is a string. *)
Definition item_accepted (item : any) : Prop :=
  ∃ sub k, item = Slice sub ∧ 2 ≤ length sub ∧ nth 0 sub Nil = Str k.

(** An identifier as [ParseCode] returns it: six bytes in the format of
    [Sprintf_code]. *)
Definition is_identifier (v : any) : Prop :=
  ∃ bs, length bs = 6 ∧ v = Str (Sprintf_code bs).

(** What the specification asks of a member: an array of at least two
    members whose first is an identifier. *)
Definition identifier_item (item : any) : Prop :=
  ∃ sub, item = Slice sub ∧ 2 ≤ length sub ∧ is_identifier (nth 0 sub Nil).

(** The key and the value that the loop takes from an accepted member. *)
Definition entry (item : any) : string * any :=
  match item with
  | Slice sub =>
      (match nth 0 sub Nil with Str key => key | _ => EmptyString end,
       nth 1 sub Nil)
  | _ => (EmptyString, Nil)
  end.

Definition entries (arr : list any) : list (string * any) := map entry arr.

(** The assignments [result[key] = value], in order. *)
Definition assign_all (result : gmap string any) (l : list (string * any))
    : gmap string any :=
  foldl (λ m e, <[e.1 := e.2]> m) result l.

(** A frame that passes the whole check of [ParseFlattened], with its map:
    what [ParseAny] decodes from the frame [buf], after its 17 bytes of
    header, is an array without an error, every member of that array is
    accepted, and [m] is the map of the assignments for these members. *)
Definition validated (buf : list byte) (m : gmap string any) : Prop :=
  ∃ arr r',
    ParseAny (drop 17 buf) = (Slice arr, None, r')
    ∧ Forall item_accepted arr ∧ m = assign_all ∅ (entries arr).

(** What a run of the producer sends, read by read: a frame that passes the
    check sends its own map, a frame that does not sends nothing, and a read
    with an error of the framing or of the transport sends nothing. *)
Inductive run_sends
    : list (hdlc_error * list byte) → list (option (gmap string any)) → Prop :=
  | run_sends_nil : run_sends [] []
  | run_sends_valid buf m reads ps :
      validated buf m → run_sends reads ps →
      run_sends ((hdlc_nil, buf) :: reads) (Some m :: ps)
  | run_sends_invalid buf reads ps :
      (∀ m, ¬ validated buf m) → run_sends reads ps →
      run_sends ((hdlc_nil, buf) :: reads) ps
  | run_sends_no_frame err buf reads ps :
      err ≠ hdlc_nil → run_sends reads ps →
      run_sends ((err, buf) :: reads) ps.

(** The errors that the decoders of the package make. *)
Definition decode_error (e : error) : Prop :=
  e = EOF ∨ e = ErrUnexpectedEOF ∨ e = Errorf "not a code"
  ∨ (∃ b, e = Errorf ("unknown enum index " +:+ fmt_d b))
  ∨ (∃ b, e = Errorf ("unrecognized datatype: " +:+ fmt_d b)).

(** ** More of the two files: ranges, the consumer, the counters *)

(** The errors of a read that found too few bytes. *)
Definition read_error (e : error) : Prop := e = EOF ∨ e = ErrUnexpectedEOF.

(** The number a byte stands for. *)
Definition bnum (b : byte) : Z := Z.of_N (byte_val b).

(** Every integer in a value lies in the range of its Go type. *)
Fixpoint in_range (v : any) : Prop :=
  match v with
  | Nil | Str _ => True
  | Slice arr =>
      (fix all (l : list any) : Prop :=
         match l with
         | [] => True
         | x :: l' => in_range x ∧ all l'
         end) arr
  | Int8 i => (-2 ^ 7 ≤ i < 2 ^ 7)%Z
  | Int16 i => (-2 ^ 15 ≤ i < 2 ^ 15)%Z
  | Int32 i => (-2 ^ 31 ≤ i < 2 ^ 31)%Z
  | Uint8 i => (0 ≤ i < 2 ^ 8)%Z
  | Uint16 i => (0 ≤ i < 2 ^ 16)%Z
  | Uint32 i => (0 ≤ i < 2 ^ 32)%Z
  end.

(** The errors that [ParseFlattened] makes itself. *)
Definition flatten_error (e : error) : Prop :=
  e = Errorf "top-level structure not of array type"
  ∨ e = Errorf "sub-level data not of array type"
  ∨ e = Errorf "sub-level data does not contain at least two entries"
  ∨ e = Errorf "first entry not string type; unusable as key".

(** A member cut down to its first two members. *)
Definition first_two (item : any) : any :=
  match item with
  | Slice (key :: value :: _) => Slice [key; value]
  | _ => item
  end.

(** ** The consumer of [main.go]

    The conversion [int(x)]: [int] has [intSize] bits, 32 or 64 with the
    platform, and a value that does not fit wraps around. *)
Definition int_of (intSize : Z) (x : Z) : Z :=
  to_signed intSize (x mod 2 ^ intSize).

(** [anytoint]; the cases for [int64] and [uint64] have no value in [any],
    the decoder makes none. *)
Definition anytoint (intSize : Z) (i : any) : Z * option error :=
  match i with
  | Int8 x => (int_of intSize x, None)
  | Int16 x => (int_of intSize x, None)
  | Int32 x => (int_of intSize x, None)
  | Uint8 x => (int_of intSize x, None)
  | Uint16 x => (int_of intSize x, None)
  | Uint32 x => (int_of intSize x, None)
  | _ => (0%Z, Some (Errorf "not a number"))
  end.

(** The keys of the map [gauges]. *)
Definition gauge_keys : list string :=
  ["1-0:1.7.0.255"; "1-0:2.7.0.255"; "1-0:3.7.0.255"; "1-0:4.7.0.255";
   "1-0:31.7.0.255"; "1-0:51.7.0.255"; "1-0:71.7.0.255";
   "1-0:32.7.0.255"; "1-0:52.7.0.255"; "1-0:72.7.0.255";
   "1-0:1.8.0.255"; "1-0:2.8.0.255"; "1-0:3.8.0.255"; "1-0:4.8.0.255"]%string.

(** The gauges with the integer that each was last set to, before its
    conversion to [float64]; a new gauge is at zero. *)
Definition gauges : gmap string Z :=
  list_to_map (map (λ k, (k, 0%Z)) gauge_keys).

(** The body of [for k := range packet]: the lookup of the gauge, the
    conversion of [packet[k]] ([nil] for a key that is not there), and
    [g.Set]. *)
Definition consume_key (intSize : Z) (packet : gmap string any)
    (g : gmap string Z) (k : string) : gmap string Z :=
  match g !! k with
  | None => g
  | Some _ =>
      match anytoint intSize (default Nil (packet !! k)) with
      | (val, None) => <[k := val]> g
      | (_, Some _) => g
      end
  end.

(** The loop over the keys of [packet], in the order [order] that the
    runtime picks. *)
Definition consume_packet (intSize : Z) (order : list string)
    (packet : gmap string any) (g : gmap string Z) : gmap string Z :=
  foldl (consume_key intSize packet) g order.

(** What an iteration of the producer sends. *)
Definition sent (read : hdlc_error * list byte)
    : option (option (gmap string any)) :=
  match read with
  | (hdlc_nil, buf) =>
      match ParseFlattened (drop 17 buf) with
      | (packet, None, _) => Some packet
      | (_, Some _, _) => None
      end
  | _ => None
  end.

Definition outcome_is (kind : hdlc_error) (read : hdlc_error * list byte)
    : bool :=
  match kind, fst read with
  | hdlc_nil, hdlc_nil | hdlc_ErrResynced, hdlc_ErrResynced
  | hdlc_ErrAbort, hdlc_ErrAbort | hdlc_other, hdlc_other => true
  | _, _ => false
  end.

Definition parse_failed (read : hdlc_error * list byte) : bool :=
  match read with
  | (hdlc_nil, buf) =>
      match ParseFlattened (drop 17 buf) with
      | (_, Some _, _) => true
      | (_, None, _) => false
      end
  | _ => false
  end.

(** * Properties *)

(** ** [io.ReadFull] *)

Lemma ReadFull_ok len r buf r' :
  ReadFull len r = (buf, None, r') → r = buf ++ r' ∧ length buf = len.
Proof.
  unfold ReadFull. destruct len as [|len].
  - intros [= <- <-]. done.
  - destruct r as [|b r]; [done|].
    destruct (S len <=? length (b :: r)) eqn:Hle; [|done].
    intros [= <- <-]. apply Nat.leb_le in Hle.
    split; [simpl; f_equal; symmetry; apply take_drop | simpl in *; rewrite length_take; lia].
Qed.

Lemma ReadFull_run p s : ReadFull (length p) (p ++ s) = (p, None, s).
Proof.
  unfold ReadFull. destruct p as [|b p]; [done|].
  cbn [length app].
  assert ((S (length p) <=? S (length (p ++ s))) = true) as ->.
  { apply Nat.leb_le. rewrite length_app. lia. }
  change (b :: p ++ s) with ((b :: p) ++ s).
  change (S (length p)) with (length (b :: p)).
  by rewrite take_app_length, drop_app_length.
Qed.

Lemma ReadFull_shrinks len r buf e r' :
  ReadFull len r = (buf, e, r') → length r' ≤ length r.
Proof.
  unfold ReadFull. destruct len as [|len].
  - by intros [= _ _ <-].
  - destruct r as [|b r]; [by intros [= _ _ <-]|].
    destruct (_ <=? _); intros [= _ _ <-]; [rewrite length_drop|]; simpl; lia.
Qed.

Lemma ReadFull_1_cons b r : ReadFull 1 (b :: r) = ([b], None, r).
Proof. apply (ReadFull_run [b] r). Qed.

Lemma ReadFull_1_nil : ReadFull 1 [] = ([x00], Some EOF, []).
Proof. reflexivity. Qed.

(** ** The scalar decoders: what a success means, and what they leave *)

Lemma ParseString_ok r s r' :
  ParseString r = (s, None, r') →
  ∃ n bs, r = n :: bs ++ r' ∧ N.to_nat (byte_val n) = length bs
          ∧ s = string_of_list_byte bs.
Proof.
  unfold ParseString. destruct r as [|n r]; [done|].
  rewrite ReadFull_1_cons. cbn [at_ nth].
  destruct (ReadFull _ r) as [[buf [e|]] r2] eqn:H; [done|].
  intros [= <- <-]. apply ReadFull_ok in H as [-> Hl]. eauto.
Qed.

Lemma ParseString_run n bs s :
  N.to_nat (byte_val n) = length bs →
  ParseString (n :: bs ++ s) = (string_of_list_byte bs, None, s).
Proof.
  intros Hl. unfold ParseString. rewrite ReadFull_1_cons. cbn [at_ nth].
  by rewrite Hl, ReadFull_run.
Qed.

Lemma ParseString_shrinks r s e r' :
  ParseString r = (s, e, r') → length r' ≤ length r.
Proof.
  unfold ParseString.
  destruct (ReadFull 1 r) as [[buf [e1|]] r1] eqn:H1.
  - intros [= _ _ <-]. eapply ReadFull_shrinks, H1.
  - apply ReadFull_shrinks in H1.
    destruct (ReadFull _ r1) as [[buf2 [e2|]] r2] eqn:H2;
      apply ReadFull_shrinks in H2; intros [= _ _ <-]; lia.
Qed.

Lemma ParseCode_ok r s r' :
  ParseCode r = (s, None, r') →
  ∃ bs, r = x06 :: bs ++ r' ∧ length bs = 6 ∧ s = Sprintf_code bs.
Proof.
  unfold ParseCode. destruct r as [|n r]; [done|].
  rewrite ReadFull_1_cons. cbn [at_ nth].
  destruct (ReadFull _ r) as [[buf [e|]] r2] eqn:H; [done|].
  destruct (N.to_nat (byte_val n) =? 6) eqn:Hn; [|done].
  intros [= <- <-]. apply Nat.eqb_eq in Hn.
  apply ReadFull_ok in H as [-> Hl]. exists buf. split_and!; [|lia|done].
  f_equal. destruct n; try discriminate Hn. done.
Qed.

Lemma ParseCode_run bs s :
  length bs = 6 → ParseCode (x06 :: bs ++ s) = (Sprintf_code bs, None, s).
Proof.
  intros Hl. unfold ParseCode. rewrite ReadFull_1_cons. cbn [at_ nth].
  change (N.to_nat (byte_val x06)) with 6. by rewrite <- Hl, ReadFull_run, Hl.
Qed.

Lemma ParseCode_shrinks r s e r' :
  ParseCode r = (s, e, r') → length r' ≤ length r.
Proof.
  unfold ParseCode.
  destruct (ReadFull 1 r) as [[buf [e1|]] r1] eqn:H1.
  - intros [= _ _ <-]. eapply ReadFull_shrinks, H1.
  - apply ReadFull_shrinks in H1.
    destruct (ReadFull _ r1) as [[buf2 [e2|]] r2] eqn:H2;
      apply ReadFull_shrinks in H2; [|destruct (negb _)];
      intros [= _ _ <-]; lia.
Qed.

Lemma binary_Read_ok size decode r z r' :
  binary_Read size decode r = (z, None, r') →
  ∃ bs, r = bs ++ r' ∧ length bs = size ∧ z = decode bs.
Proof.
  unfold binary_Read.
  destruct (ReadFull size r) as [[bs [e|]] r1] eqn:H; [done|].
  intros [= <- <-]. apply ReadFull_ok in H as [-> Hl]. eauto.
Qed.

Lemma binary_Read_run decode bs s :
  binary_Read (length bs) decode (bs ++ s) = (decode bs, None, s).
Proof. unfold binary_Read. by rewrite ReadFull_run. Qed.

Lemma binary_Read_shrinks size decode r z e r' :
  binary_Read size decode r = (z, e, r') → length r' ≤ length r.
Proof.
  unfold binary_Read.
  destruct (ReadFull size r) as [[bs [e1|]] r1] eqn:H;
    apply ReadFull_shrinks in H; intros [= _ _ <-]; lia.
Qed.

Lemma ParseEnum_ok r v r' :
  ParseEnum r = (v, None, r') →
  ∃ b, r = b :: r' ∧ ∀ s, ParseEnum (b :: s) = (v, None, s).
Proof.
  unfold ParseEnum. destruct r as [|b r]; [done|].
  intros H. exists b. revert H.
  rewrite ReadFull_1_cons. cbn [at_ nth].
  intros H. assert (r' = r) as ->.
  { destruct b; cbv [byte_val Byte.to_N] in H; congruence. }
  split; [done|]. intros s. rewrite ReadFull_1_cons. cbn [at_ nth].
  destruct b; cbv [byte_val Byte.to_N] in H |- *; by simplify_eq.
Qed.

Lemma ParseEnum_shrinks r v e r' :
  ParseEnum r = (v, e, r') → length r' ≤ length r.
Proof.
  unfold ParseEnum.
  destruct (ReadFull 1 r) as [[buf [e1|]] r1] eqn:H1;
    apply ReadFull_shrinks in H1.
  - intros [= _ _ <-]. lia.
  - repeat case_match; intros [= _ _ <-]; lia.
Qed.

(** ** The recursive decoder *)

Lemma ParseAny_switch_step array b r :
  tag_step array b r (ParseAny_switch array b r).
Proof.
  destruct b;
    first [ by apply step_other | by apply step_null
          | by apply step_array; [left|] | by apply step_array; [right|]
          | by apply step_code
          | by apply step_text; [left|] | by apply step_text; [right|]
          | by apply step_int8 | by apply step_int16 | by apply step_uint8
          | by apply step_uint16 | by apply step_int32 | by apply step_uint32
          | by apply step_enum ].
Qed.

Lemma ParseAny_fuel_nil fuel :
  ParseAny_fuel (S fuel) [] = Some (Nil, Some EOF, []).
Proof. reflexivity. Qed.

Lemma ParseAny_fuel_cons fuel b r :
  ParseAny_fuel (S fuel) (b :: r)
  = ParseAny_switch (ParseArray (ParseAny_fuel fuel)) b r.
Proof. cbn [ParseAny_fuel]. by rewrite ReadFull_1_cons. Qed.

Section loop.
Variable elem : reader → option (res any).
Hypothesis Hs : elem_shrinks elem.
Hypothesis Hx : elem_exact elem.

Lemma ParseArray_loop_shrinks n i arr r v e r' :
  ParseArray_loop elem n i arr r = Some (v, e, r') → length r' ≤ length r.
Proof.
  revert i arr r. induction n as [|n IH]; intros i arr r; cbn.
  - by intros [= _ _ <-].
  - destruct (elem r) as [[[v1 [e1|]] r1]|] eqn:He; [| |done];
      apply Hs in He.
    + intros [= _ _ <-]. done.
    + intros H. apply IH in H. lia.
Qed.

Lemma ParseArray_shrinks r v e r' :
  ParseArray elem r = Some (v, e, r') → length r' ≤ length r.
Proof.
  unfold ParseArray.
  destruct (ReadFull 1 r) as [[buf [e1|]] r1] eqn:H1;
    apply ReadFull_shrinks in H1.
  - intros [= _ _ <-]. done.
  - intros H. apply ParseArray_loop_shrinks in H. lia.
Qed.

Lemma ParseArray_loop_enough bound n i arr r :
  (∀ r, length r ≤ bound → is_Some (elem r)) →
  length r ≤ bound → is_Some (ParseArray_loop elem n i arr r).
Proof.
  intros Hb. revert i arr r. induction n as [|n IH]; intros i arr r Hr; cbn.
  - done.
  - destruct (Hb r Hr) as [[[v1 e1] r1] He]. rewrite He.
    apply Hs in He. destruct e1; [done|]. apply IH. lia.
Qed.

Lemma ParseArray_enough bound r :
  (∀ r, length r ≤ bound → is_Some (elem r)) →
  length r ≤ S bound → is_Some (ParseArray elem r).
Proof.
  intros Hb Hr. unfold ParseArray.
  destruct (ReadFull 1 r) as [[buf [e1|]] r1] eqn:H1; [done|].
  apply ReadFull_ok in H1 as [-> Hl].
  apply ParseArray_loop_enough with bound; [done|].
  rewrite length_app in Hr. lia.
Qed.

Lemma ParseArray_loop_exact n i arr r v r' :
  length arr = i + n →
  ParseArray_loop elem n i arr r = Some (v, None, r') →
  ∃ ps vs, r = concat ps ++ r' ∧ Forall2 wire ps vs ∧ length vs = n
           ∧ v = Slice (take i arr ++ vs)
           ∧ ∀ s, ParseArray_loop elem n i arr (concat ps ++ s)
                  = Some (v, None, s).
Proof.
  revert i arr r. induction n as [|n IH]; intros i arr r Hl; cbn.
  - intros [= <- <-]. exists [], []. rewrite take_ge by lia.
    rewrite app_nil_r. split_and!; done || constructor.
  - destruct (elem r) as [[[v1 [e1|]] r1]|] eqn:He; [done| |done].
    intros H. apply Hx in He as (p & -> & Hw & Hrun).
    apply IH in H as (ps & vs & -> & Hws & Hn & -> & Hloop);
      [|rewrite length_insert; lia].
    exists (p :: ps), (v1 :: vs). cbn [concat length].
    assert (take (S i) (<[i:=v1]> arr) ++ vs = take i arr ++ v1 :: vs) as Hv.
    { rewrite (take_S_r _ _ v1) by (apply list_lookup_insert_eq; lia).
      rewrite take_insert_ge by lia. by rewrite <- app_assoc. }
    split_and!.
    + by rewrite app_assoc.
    + by constructor.
    + lia.
    + by rewrite Hv.
    + intros s. rewrite <- app_assoc, Hrun, Hloop. by rewrite Hv.
Qed.

Lemma ParseArray_exact r v r' :
  ParseArray elem r = Some (v, None, r') →
  ∃ cnt ps vs, r = cnt :: concat ps ++ r' ∧ Forall2 wire ps vs
               ∧ N.to_nat (byte_val cnt) = length vs ∧ v = Slice vs
               ∧ ∀ s, ParseArray elem (cnt :: concat ps ++ s)
                      = Some (v, None, s).
Proof.
  unfold ParseArray. destruct r as [|cnt r]; [done|].
  rewrite ReadFull_1_cons. cbn [at_ nth]. intros H.
  apply ParseArray_loop_exact in H as (ps & vs & -> & Hws & Hn & -> & Hloop);
    [|by rewrite length_replicate].
  exists cnt, ps, vs. split_and!; done.
Qed.
End loop.

Lemma ParseArray_loop_mono elem elem' n i arr r x :
  (∀ r x, elem r = Some x → elem' r = Some x) →
  ParseArray_loop elem n i arr r = Some x →
  ParseArray_loop elem' n i arr r = Some x.
Proof.
  intros Hm. revert i arr r. induction n as [|n IH]; intros i arr r; cbn; [done|].
  destruct (elem r) as [[[v1 e1] r1]|] eqn:He; [|done].
  rewrite (Hm _ _ He). destruct e1; [done|]. apply IH.
Qed.

Lemma ParseArray_mono elem elem' r x :
  (∀ r x, elem r = Some x → elem' r = Some x) →
  ParseArray elem r = Some x → ParseArray elem' r = Some x.
Proof.
  intros Hm. unfold ParseArray.
  destruct (ReadFull 1 r) as [[buf [e1|]] r1]; [done|].
  by apply ParseArray_loop_mono.
Qed.

Lemma of_string_inv x v e r' :
  of_string x = (v, e, r') → ∃ s, x = (s, e, r') ∧ v = Str s.
Proof. destruct x as [[s e0] r]. cbn. intros [= <- <- <-]. eauto. Qed.

Lemma wrap_inv c x v e r' :
  wrap c x = (v, e, r') → ∃ z, x = (z, e, r') ∧ v = c z.
Proof. destruct x as [[z e0] r]. cbn. intros [= <- <- <-]. eauto. Qed.

(** What the scalar cases of the switch leave in the reader. *)
Ltac scalar_shrinks H :=
  first
    [ apply of_string_inv in H as (? & H & _);
      first [ apply ParseCode_shrinks in H | apply ParseString_shrinks in H ]
    | apply wrap_inv in H as (? & H & _); apply binary_Read_shrinks in H
    | apply ParseEnum_shrinks in H ].

Lemma ParseAny_fuel_shrinks fuel : elem_shrinks (ParseAny_fuel fuel).
Proof.
  induction fuel as [|fuel IH]; intros r v e r' H; [done|].
  destruct r as [|b r1].
  { rewrite ParseAny_fuel_nil in H. by simplify_eq. }
  rewrite ParseAny_fuel_cons in H. cbn [length].
  destruct (ParseAny_switch_step (ParseArray (ParseAny_fuel fuel)) b r1)
    as [_ Hx|_ Hx|_ Hx|_ Hx|_ Hx|_ Hx|_ Hx|_ Hx|_ Hx|_ Hx|_ Hx|_ Hx];
    rewrite Hx in H; clear Hx.
  1, 12: simplify_eq; lia.
  1: apply ParseArray_shrinks in H; [lia|done].
  all: injection H as H;
    unfold ParseInt8, ParseInt16, ParseInt32, ParseUint8, ParseUint16,
      ParseUint32 in H;
    scalar_shrinks H; lia.
Qed.

Lemma ParseAny_fuel_enough fuel r :
  length r < fuel → is_Some (ParseAny_fuel fuel r).
Proof.
  revert r. induction fuel as [|fuel IH]; intros r Hr; [lia|].
  destruct r as [|b r1]; [done|].
  rewrite ParseAny_fuel_cons. cbn [length] in Hr.
  destruct (ParseAny_switch_step (ParseArray (ParseAny_fuel fuel)) b r1)
    as [_ Hx|_ Hx|_ Hx|_ Hx|_ Hx|_ Hx|_ Hx|_ Hx|_ Hx|_ Hx|_ Hx|_ Hx];
    rewrite Hx; clear Hx; try done.
  destruct r1 as [|c r2]; [done|].
  apply ParseArray_enough with (length r2).
  - apply ParseAny_fuel_shrinks.
  - intros r Hle. apply IH. cbn [length] in Hr. lia.
  - done.
Qed.

Lemma ParseAny_switch_mono array array' b r x :
  (∀ x, array r = Some x → array' r = Some x) →
  ParseAny_switch array b r = Some x → ParseAny_switch array' b r = Some x.
Proof.
  intros Hm. destruct b; first [ exact (Hm x) | done ].
Qed.

Lemma ParseAny_fuel_mono fuel fuel' r x :
  fuel ≤ fuel' → ParseAny_fuel fuel r = Some x → ParseAny_fuel fuel' r = Some x.
Proof.
  revert fuel' r x. induction fuel as [|fuel IH]; intros fuel' r x Hle; [done|].
  destruct fuel' as [|fuel']; [lia|].
  destruct r as [|b r1]; [done|].
  rewrite !ParseAny_fuel_cons. apply ParseAny_switch_mono.
  intros y. apply ParseArray_mono. intros r0 z. apply IH. lia.
Qed.

Lemma int_ok c size decode r v r' :
  wrap c (binary_Read size decode r) = (v, None, r') →
  ∃ bs, r = bs ++ r' ∧ length bs = size ∧ v = c (decode bs)
        ∧ ∀ s, wrap c (binary_Read size decode (bs ++ s)) = (v, None, s).
Proof.
  intros H. apply wrap_inv in H as (z & H & ->).
  apply binary_Read_ok in H as (bs & -> & <- & ->).
  exists bs. split_and!; try done. intros s. by rewrite binary_Read_run.
Qed.

Lemma ParseAny_fuel_exact fuel : elem_exact (ParseAny_fuel fuel).
Proof.
  induction fuel as [|fuel IH]; intros r v r' H; [done|].
  destruct r as [|b r1]; [done|].
  rewrite ParseAny_fuel_cons in H.
  destruct (ParseAny_switch_step (ParseArray (ParseAny_fuel fuel)) b r1)
    as [Hb Hx|Hb Hx|Hb Hx|Hb Hx|Hb Hx|Hb Hx|Hb Hx|Hb Hx|Hb Hx|Hb Hx|Hb Hx|Hb Hx];
    rewrite Hx in H; clear Hx; [| |injection H as H..|done].
  - simplify_eq. exists [x00]. split_and!; [done|constructor|]. intros s.
    cbn [app]. by rewrite ParseAny_fuel_cons.
  - apply ParseArray_exact in H as (cnt & ps & vs & -> & Hws & Hn & -> & Hrun);
      [|done].
    exists (b :: cnt :: concat ps). split_and!; [done| |].
    + apply wire_seq; [by destruct Hb as [-> | ->]; [left|right]|done..].
    + intros s. cbn [app]. rewrite ParseAny_fuel_cons, <- Hrun.
      by destruct Hb as [-> | ->].
  - apply of_string_inv in H as (s0 & H & ->).
    apply ParseCode_ok in H as (bs & -> & Hl & ->).
    exists (b :: x06 :: bs). subst b. split_and!; [done|by constructor|].
    intros s. cbn [app]. rewrite ParseAny_fuel_cons.
    change (ParseAny_switch ?a x09 ?r) with (Some (of_string (ParseCode r))).
    by rewrite ParseCode_run.
  - apply of_string_inv in H as (s0 & H & ->).
    apply ParseString_ok in H as (n & bs & -> & Hl & ->).
    exists (b :: n :: bs). split_and!; [done| |].
    + apply wire_text; [by destruct Hb as [-> | ->]; [left|right]|done].
    + intros s. cbn [app]. rewrite ParseAny_fuel_cons.
      assert (ParseAny_switch (ParseArray (ParseAny_fuel fuel)) b (n :: bs ++ s)
              = Some (of_string (ParseString (n :: bs ++ s)))) as ->.
      { by destruct Hb as [-> | ->]. }
      by rewrite ParseString_run.
  - apply int_ok in H as (bs & -> & Hl & -> & Hrun). subst b.
    exists (x0f :: bs). split_and!; [done|by constructor|].
    intros s. cbn [app]. rewrite ParseAny_fuel_cons. exact (f_equal Some (Hrun s)).
  - apply int_ok in H as (bs & -> & Hl & -> & Hrun). subst b.
    exists (x10 :: bs). split_and!; [done|by constructor|].
    intros s. cbn [app]. rewrite ParseAny_fuel_cons. exact (f_equal Some (Hrun s)).
  - apply int_ok in H as (bs & -> & Hl & -> & Hrun). subst b.
    exists (x11 :: bs). split_and!; [done|by constructor|].
    intros s. cbn [app]. rewrite ParseAny_fuel_cons. exact (f_equal Some (Hrun s)).
  - apply int_ok in H as (bs & -> & Hl & -> & Hrun). subst b.
    exists (x12 :: bs). split_and!; [done|by constructor|].
    intros s. cbn [app]. rewrite ParseAny_fuel_cons. exact (f_equal Some (Hrun s)).
  - apply int_ok in H as (bs & -> & Hl & -> & Hrun). subst b.
    exists (x05 :: bs). split_and!; [done|by constructor|].
    intros s. cbn [app]. rewrite ParseAny_fuel_cons. exact (f_equal Some (Hrun s)).
  - apply int_ok in H as (bs & -> & Hl & -> & Hrun). subst b.
    exists (x06 :: bs). split_and!; [done|by constructor|].
    intros s. cbn [app]. rewrite ParseAny_fuel_cons. exact (f_equal Some (Hrun s)).
  - apply ParseEnum_ok in H as (c & -> & Hrun). subst b.
    exists [x16; c]. split_and!; [done|by constructor|].
    intros s. cbn [app]. rewrite ParseAny_fuel_cons. exact (f_equal Some (Hrun s)).
Qed.

(** ** [ParseAny]: the bound on the nesting is never reached *)

Lemma ParseAny_fuel_ParseAny fuel r x :
  ParseAny_fuel fuel r = Some x → ParseAny r = x.
Proof.
  intros H. unfold ParseAny.
  destruct (ParseAny_fuel_enough (S (length r)) r) as [y Hy]; [lia|].
  rewrite Hy.
  apply (ParseAny_fuel_mono _ (fuel + S (length r))) in H; [|lia].
  apply (ParseAny_fuel_mono _ (fuel + S (length r))) in Hy; [|lia].
  congruence.
Qed.

Lemma ParseAny_fuel_spec r : ParseAny_fuel (S (length r)) r = Some (ParseAny r).
Proof.
  destruct (ParseAny_fuel_enough (S (length r)) r) as [y Hy]; [lia|].
  rewrite Hy. f_equal. symmetry. by apply ParseAny_fuel_ParseAny in Hy.
Qed.

Lemma ParseAny_exact r v r' :
  ParseAny r = (v, None, r') →
  ∃ p, r = p ++ r' ∧ wire p v ∧ ∀ s, ParseAny (p ++ s) = (v, None, s).
Proof.
  intros H. pose proof (ParseAny_fuel_spec r) as Hf. rewrite H in Hf.
  apply ParseAny_fuel_exact in Hf as (p & -> & Hw & Hrun).
  exists p. split_and!; [done..|]. intros s.
  by apply ParseAny_fuel_ParseAny with (S (length (p ++ r'))).
Qed.

Lemma ParseAny_shrinks r v e r' :
  ParseAny r = (v, e, r') → length r' ≤ length r.
Proof.
  intros H. pose proof (ParseAny_fuel_spec r) as Hf. rewrite H in Hf.
  by apply ParseAny_fuel_shrinks in Hf.
Qed.

Lemma wire_nonempty p v : wire p v → p ≠ [].
Proof. by destruct 1. Qed.

(** The recursion of the Go code, without the bound: [ParseAny] on a
    non-empty reader is its switch, with [ParseArray] calling [ParseAny]. *)
Lemma ParseAny_cons b r :
  ParseAny_switch (ParseArray (λ r, Some (ParseAny r))) b r
  = Some (ParseAny (b :: r)).
Proof.
  pose proof (ParseAny_fuel_spec (b :: r)) as H.
  rewrite ParseAny_fuel_cons in H. revert H. apply ParseAny_switch_mono.
  intros x. apply ParseArray_mono. intros r0 y Hy.
  by rewrite (ParseAny_fuel_ParseAny _ _ _ Hy).
Qed.

Lemma ParseAny_nil : ParseAny [] = (Nil, Some EOF, []).
Proof. reflexivity. Qed.

(** ** The errors of the decoder *)

Lemma ReadFull_error len r buf e r' :
  ReadFull len r = (buf, Some e, r') → e = EOF ∨ e = ErrUnexpectedEOF.
Proof.
  unfold ReadFull. destruct len as [|len]; [done|].
  destruct r as [|b r]; [intros [= _ <- _]; by left|].
  destruct (_ <=? _); [done|]. intros [= _ <- _]. by right.
Qed.

Lemma ParseString_error r s e r' :
  ParseString r = (s, Some e, r') → decode_error e.
Proof.
  unfold ParseString, decode_error.
  destruct (ReadFull 1 r) as [[buf [e1|]] r1] eqn:H1.
  { intros [= _ <- _]. apply ReadFull_error in H1. tauto. }
  destruct (ReadFull _ r1) as [[buf2 [e2|]] r2] eqn:H2; [|done].
  intros [= _ <- _]. apply ReadFull_error in H2. tauto.
Qed.

Lemma ParseCode_error r s e r' :
  ParseCode r = (s, Some e, r') → decode_error e.
Proof.
  unfold ParseCode, decode_error.
  destruct (ReadFull 1 r) as [[buf [e1|]] r1] eqn:H1.
  { intros [= _ <- _]. apply ReadFull_error in H1. tauto. }
  destruct (ReadFull _ r1) as [[buf2 [e2|]] r2] eqn:H2.
  { intros [= _ <- _]. apply ReadFull_error in H2. tauto. }
  destruct (negb _); [|done]. intros [= _ <- _]. tauto.
Qed.

Lemma binary_Read_error size decode r z e r' :
  binary_Read size decode r = (z, Some e, r') → decode_error e.
Proof.
  unfold binary_Read, decode_error.
  destruct (ReadFull size r) as [[bs [e1|]] r1] eqn:H1; [|done].
  intros [= _ <- _]. apply ReadFull_error in H1. tauto.
Qed.

Lemma ParseEnum_error r v e r' :
  ParseEnum r = (v, Some e, r') → decode_error e.
Proof.
  unfold ParseEnum, decode_error.
  destruct (ReadFull 1 r) as [[buf [e1|]] r1] eqn:H1.
  { intros [= _ <- _]. apply ReadFull_error in H1. tauto. }
  intros H. do 3 right. left. exists (at_ buf 0).
  destruct (at_ buf 0); cbv [byte_val Byte.to_N] in H; by simplify_eq.
Qed.

Lemma ParseArray_loop_error elem n i arr r v e r' :
  (∀ r v e r', elem r = Some (v, Some e, r') → decode_error e) →
  ParseArray_loop elem n i arr r = Some (v, Some e, r') → decode_error e.
Proof.
  intros He. revert i arr r. induction n as [|n IH]; intros i arr r; cbn; [done|].
  destruct (elem r) as [[[v1 [e1|]] r1]|] eqn:H1; [|by apply IH|done].
  intros [= _ <- _]. by eapply He.
Qed.

Lemma ParseAny_fuel_error fuel r v e r' :
  ParseAny_fuel fuel r = Some (v, Some e, r') → decode_error e.
Proof.
  revert r v e r'. induction fuel as [|fuel IH]; intros r v e r' H; [done|].
  destruct r as [|b r1].
  { rewrite ParseAny_fuel_nil in H. simplify_eq. by left. }
  rewrite ParseAny_fuel_cons in H.
  destruct (ParseAny_switch_step (ParseArray (ParseAny_fuel fuel)) b r1)
    as [_ Hx|_ Hx|_ Hx|_ Hx|_ Hx|_ Hx|_ Hx|_ Hx|_ Hx|_ Hx|_ Hx|_ Hx];
    rewrite Hx in H; clear Hx.
  1: done.
  11: { simplify_eq. do 4 right. by exists b. }
  1: { unfold ParseArray in H.
       destruct (ReadFull 1 r1) as [[buf [e1|]] r2] eqn:H1.
       - simplify_eq. apply ReadFull_error in H1. unfold decode_error. tauto.
       - by eapply ParseArray_loop_error. }
  all: injection H as H;
    unfold ParseInt8, ParseInt16, ParseInt32, ParseUint8, ParseUint16,
      ParseUint32 in H;
    first
      [ apply of_string_inv in H as (? & H & _);
        first [ by apply ParseCode_error in H
              | by apply ParseString_error in H ]
      | apply wrap_inv in H as (? & H & _); by apply binary_Read_error in H
      | by apply ParseEnum_error in H ].
Qed.

(** ** The integers and the decimal format, on examples *)

Example signed_integers :
  ParseAny (bytes [15; 255]%N) = (Int8 (-1), None, [])
  ∧ ParseAny (bytes [16; 128; 0]%N) = (Int16 (-32768), None, [])
  ∧ ParseAny (bytes [5; 255; 255; 255; 254]%N) = (Int32 (-2), None, [])
  ∧ ParseAny (bytes [6; 255; 255; 255; 254]%N) = (Uint32 4294967294, None, [])
  ∧ ParseAny (bytes [18; 1]%N) = (Uint16 0, Some ErrUnexpectedEOF, []).
Proof. split_and!; vm_compute; reflexivity. Qed.

Example fmt_d_examples :
  fmt_d x00 = "0"%string ∧ fmt_d x07 = "7"%string ∧ fmt_d xff = "255"%string.
Proof. split_and!; reflexivity. Qed.

(** ** Scenario 1 *)

(** C1, as amended.  The record of the scenario inside the top-level array
    that the flattener iterates over (tag 1, count 1), each identifier with
    its length byte 6, flattens to the mapping with the single entry
    "1-0:32.7.0.255" = 2500 (a uint16); the members after the second are
    dropped and the whole record is read. *)
Theorem scenario1_in_array :
  ParseFlattened
    (bytes [1; 1; 2; 3; 9; 6; 1; 0; 32; 7; 0; 255; 18; 9; 196;
            1; 2; 17; 255; 22; 35]%N)
  = (Some {[ "1-0:32.7.0.255"%string := Uint16 2500 ]}, None, []).
Proof. vm_compute. reflexivity. Qed.

(** C1, as stated, fails.  The record without the enclosing array decodes to
    the triple itself, whose first member is a string and not an array: the
    flattener gives no mapping and the error of a sub-level member that is
    not an array.  Read to the letter (no length byte after tag 9), the
    identifier decoder takes the byte 1 for the length and fails. *)
Lemma scenario1_as_stated_fails :
  ParseFlattened
    (bytes [2; 3; 9; 6; 1; 0; 32; 7; 0; 255; 18; 9; 196;
            1; 2; 17; 255; 22; 35]%N)
  = (None, Some (Errorf "sub-level data not of array type"), [])
  ∧ ParseAny
      (bytes [2; 3; 9; 6; 1; 0; 32; 7; 0; 255; 18; 9; 196;
              1; 2; 17; 255; 22; 35]%N)
    = (Slice [Str "1-0:32.7.0.255"; Uint16 2500; Slice [Uint8 255; Str "V"]],
       None, [])
  ∧ ParseFlattened
      (bytes [2; 3; 9; 1; 0; 32; 7; 0; 255; 18; 9; 196;
              1; 2; 17; 255; 22; 35]%N)
    = (None, Some (Errorf "not a code"),
       bytes [32; 7; 0; 255; 18; 9; 196; 1; 2; 17; 255; 22; 35]%N).
Proof. split_and!; vm_compute; reflexivity. Qed.

(** ** Nesting *)

Lemma nested_fuel d s :
  ParseAny_fuel (S d) (nested_bytes d ++ s) = Some (nested_value d, None, s).
Proof.
  revert s. induction d as [|d IH]; intros s; [done|].
  cbn [nested_bytes app]. rewrite ParseAny_fuel_cons.
  change (ParseAny_switch ?a x01 ?r) with (a r).
  unfold ParseArray. rewrite ReadFull_1_cons.
  cbn [at_ nth]. change (N.to_nat (byte_val x01)) with 1.
  cbn [ParseArray_loop replicate]. by rewrite IH.
Qed.

(** C3, as amended.  [ParseAny] has no bound on the depth of nesting and no
    error for it: arrays nested to any depth [d] around a null decode to the
    value nested as deep, whatever follows them in the reader; and an error
    of [ParseAny] is always one of a read, of a malformed identifier, of an
    unknown unit or of an unknown tag. *)
Theorem nesting_unbounded :
  (∀ d s, ParseAny (nested_bytes d ++ s) = (nested_value d, None, s))
  ∧ (∀ r v e r', ParseAny r = (v, Some e, r') → decode_error e).
Proof.
  split.
  - intros d s. apply ParseAny_fuel_ParseAny with (S d), nested_fuel.
  - intros r v e r' H. pose proof (ParseAny_fuel_spec r) as Hf.
    rewrite H in Hf. by eapply ParseAny_fuel_error.
Qed.

(** C3, as stated, fails: 33 levels of nesting, one more than the cap of 32
    that the claim gives, decode without an error. *)
Lemma nesting_33_accepted :
  ParseAny (nested_bytes 33) = (nested_value 33, None, [])
  ∧ length (nested_bytes 33) = 67.
Proof. split; vm_compute; reflexivity. Qed.

(** ** The bytes of one value *)

(** C5.  When [ParseAny] succeeds, what it took from the reader is a
    non-empty prefix [p] laid out as [wire] says (the tag byte, then the
    payload that the tag and the length or count byte declare; for a
    sequence the count and then exactly that many members), the reader is
    left right after [p], and the same bytes give the same value whatever
    comes after them. *)
Theorem ParseAny_consumes_exactly r v r' :
  ParseAny r = (v, None, r') →
  ∃ p, r = p ++ r' ∧ p ≠ [] ∧ wire p v
       ∧ ∀ s, ParseAny (p ++ s) = (v, None, s).
Proof.
  intros H. apply ParseAny_exact in H as (p & -> & Hw & Hrun).
  exists p. split_and!; [done|by eapply wire_nonempty|done..].
Qed.

Lemma ParseAny_consumes_exactly_witness :
  ∃ p, bytes [2; 2; 17; 7; 10; 1; 65; 99; 98]%N = p ++ bytes [99; 98]%N
       ∧ p ≠ [] ∧ wire p (Slice [Uint8 7; Str "A"])
       ∧ ∀ s, ParseAny (p ++ s) = (Slice [Uint8 7; Str "A"], None, s).
Proof.
  apply (ParseAny_consumes_exactly (bytes [2; 2; 17; 7; 10; 1; 65; 99; 98]%N)).
  vm_compute. reflexivity.
Defined.

(** ** The tags *)

(** C8.  A tag byte outside 0, 1, 2, 5, 6, 9, 10, 12, 15, 16, 17, 18, 22
    makes [ParseAny] fail with the error that names the tag, the reader left
    right after the tag; tag 0 gives [nil] and reads nothing more. *)
Theorem ParseAny_tags_closed b r :
  (known_tag (byte_val b) = false →
   ParseAny (b :: r)
   = (Nil, Some (Errorf ("unrecognized datatype: " +:+ fmt_d b)), r))
  ∧ (byte_val b = 0%N → ParseAny (b :: r) = (Nil, None, r)).
Proof.
  pose proof (ParseAny_cons b r) as H. split; intros Hb.
  - destruct b; vm_compute in Hb; first
      [ discriminate Hb
      | cbv [ParseAny_switch byte_val Byte.to_N] in H; inversion H; reflexivity ].
  - destruct b; vm_compute in Hb; first
      [ discriminate Hb
      | cbv [ParseAny_switch byte_val Byte.to_N] in H; inversion H; reflexivity ].
Qed.

Lemma ParseAny_tags_closed_witness :
  ParseAny (bytes [3; 1; 2]%N)
  = (Nil, Some (Errorf "unrecognized datatype: 3"), bytes [1; 2]%N)
  ∧ ParseAny (bytes [0; 1; 2]%N) = (Nil, None, bytes [1; 2]%N).
Proof.
  split.
  - apply (ParseAny_tags_closed x03 (bytes [1; 2]%N)). reflexivity.
  - apply (ParseAny_tags_closed x00 (bytes [1; 2]%N)). reflexivity.
Defined.

(** ** The identifier decoder *)

(** C6, as amended.  [ParseCode] reads a length byte [n] and then [n]
    bytes.  When fewer than [n] bytes follow, it fails with the error of the
    read (io.EOF when none follows, io.ErrUnexpectedEOF otherwise), whatever
    [n] is.  When they are there, it fails with the error of a malformed
    identifier exactly when [n] is not 6, having read them, and for [n = 6]
    it gives the six bytes in decimal, set as "%d-%d:%d.%d.%d.%d". *)
Theorem ParseCode_cases n rest :
  let len := N.to_nat (byte_val n) in
  (length rest < len →
   ParseCode (n :: rest)
   = (EmptyString, Some (if rest is [] then EOF else ErrUnexpectedEOF), []))
  ∧ (len ≤ length rest → len ≠ 6 →
     ParseCode (n :: rest)
     = (EmptyString, Some (Errorf "not a code"), drop len rest))
  ∧ (len ≤ length rest → len = 6 →
     ParseCode (n :: rest)
     = (fmt_d (at_ rest 0) +:+ "-" +:+ fmt_d (at_ rest 1) +:+ ":" +:+
        fmt_d (at_ rest 2) +:+ "." +:+ fmt_d (at_ rest 3) +:+ "." +:+
        fmt_d (at_ rest 4) +:+ "." +:+ fmt_d (at_ rest 5),
        None, drop 6 rest)).
Proof.
  intros len. unfold ParseCode. rewrite ReadFull_1_cons. cbn [at_ nth].
  fold len. split_and!.
  - intros Hlt. unfold ReadFull. destruct len as [|len]; [lia|].
    destruct rest as [|b rest]; [done|].
    by assert ((S len <=? length (b :: rest)) = false) as ->
      by (apply Nat.leb_gt; lia).
  - intros Hle Hne.
    pose proof (ReadFull_run (take len rest) (drop len rest)) as H.
    rewrite take_drop, length_take_le in H by done. rewrite H.
    by apply Nat.eqb_neq in Hne as ->.
  - intros Hle Heq. rewrite Heq in *.
    pose proof (ReadFull_run (take 6 rest) (drop 6 rest)) as H.
    rewrite take_drop, length_take_le in H by done. rewrite H.
    cbn [Nat.eqb negb]. unfold Sprintf_code, at_.
    do 6 (destruct rest as [|? rest]; [cbn in Hle; lia|]). done.
Qed.

Lemma ParseCode_cases_witness :
  ParseCode (bytes [7; 1; 2]%N) = (EmptyString, Some ErrUnexpectedEOF, [])
  ∧ ParseCode (bytes [5; 1; 2; 3; 4; 5; 9]%N)
    = (EmptyString, Some (Errorf "not a code"), bytes [9]%N)
  ∧ ParseCode (bytes [6; 1; 0; 32; 7; 0; 255; 9]%N)
    = ("1-0:32.7.0.255"%string, None, bytes [9]%N).
Proof.
  split_and!.
  - apply (ParseCode_cases x07 (bytes [1; 2]%N)). vm_compute. lia.
  - apply (ParseCode_cases x05 (bytes [1; 2; 3; 4; 5; 9]%N));
      vm_compute; lia.
  - apply (ParseCode_cases x06 (bytes [1; 0; 32; 7; 0; 255; 9]%N));
      vm_compute; lia.
Defined.

(** C6, as stated, fails: with a length byte other than 6 and fewer bytes
    than it announces, the error is the one of the short read, not the one
    of a malformed identifier. *)
Lemma ParseCode_short_read_not_malformed :
  ParseCode (bytes [7; 1; 2]%N) = (EmptyString, Some ErrUnexpectedEOF, [])
  ∧ ParseCode (bytes [5]%N) = (EmptyString, Some EOF, [])
  ∧ ErrUnexpectedEOF ≠ Errorf "not a code" ∧ EOF ≠ Errorf "not a code".
Proof. split_and!; done. Qed.

(** ** The unit decoder *)

(** C7.  On a reader with a byte [b] to read, [ParseEnum] is the table of
    the seven codes 27, 28, 29, 30, 32, 33, 35 with the units W, VA, VAr,
    Wh, VArh, A, V: it succeeds with the unit when [b] is one of the codes
    and fails with the error that carries [b] otherwise, as for 31; in both
    cases it has read the one byte.  With no byte to read it fails with
    io.EOF. *)
Theorem ParseEnum_table b r :
  ParseEnum (b :: r)
  = match spec_unit (byte_val b) with
    | Some u => (Str u, None, r)
    | None => (Str "", Some (Errorf ("unknown enum index " +:+ fmt_d b)), r)
    end
  ∧ (snd (fst (ParseEnum (b :: r))) = None
     ↔ byte_val b ∈ [27; 28; 29; 30; 32; 33; 35]%N)
  ∧ ParseEnum (x1f :: r) = (Str "", Some (Errorf "unknown enum index 31"), r)
  ∧ ParseEnum [] = (Nil, Some EOF, []).
Proof.
  unfold ParseEnum. rewrite !ReadFull_1_cons. cbn [at_ nth].
  split_and!; [| |done..].
  - by destruct b.
  - destruct b; cbv [byte_val Byte.to_N snd fst]; split; intros H; first
      [ discriminate H
      | reflexivity
      | apply (bool_decide_unpack _); vm_compute; exact I
      | apply (bool_decide_pack _) in H; vm_compute in H; destruct H ].
Qed.

(** ** The loop of [ParseFlattened] *)

Lemma flatten_loop_accepted arr result :
  Forall item_accepted arr →
  flatten_loop arr result = (Some (assign_all result (entries arr)), None).
Proof.
  intros H. revert result. induction H as [|item arr Hi _ IH]; intros result.
  - done.
  - destruct Hi as (sub & k & -> & Hl & Hk). cbn [flatten_loop].
    assert ((length sub <? 2) = false) as -> by (apply Nat.ltb_ge; lia).
    rewrite Hk, IH. cbn. by rewrite Hk.
Qed.

Lemma flatten_loop_app pre post result :
  Forall item_accepted pre →
  flatten_loop (pre ++ post) result
  = flatten_loop post (assign_all result (entries pre)).
Proof.
  intros H. revert result. induction H as [|item arr Hi _ IH]; intros result.
  - done.
  - destruct Hi as (sub & k & -> & Hl & Hk). cbn [flatten_loop app].
    assert ((length sub <? 2) = false) as -> by (apply Nat.ltb_ge; lia).
    rewrite Hk, IH. cbn. by rewrite Hk.
Qed.

(** A loop that ends without an error accepted every member. *)
Lemma flatten_loop_success arr result m e :
  flatten_loop arr result = (m, e) →
  (e = None → Forall item_accepted arr ∧ m = Some (assign_all result (entries arr)))
  ∧ (is_Some e → m = None).
Proof.
  revert result. induction arr as [|item arr IH]; intros result; cbn [flatten_loop].
  - intros [= <- <-]. split; [done|]. by intros [? ?].
  - destruct item as [|sub| | | | | | |];
      try (intros [= <- <-]; split; [done|by intros _]).
    destruct (length sub <? 2) eqn:Hl.
    { intros [= <- <-]. split; [done|by intros _]. }
    apply Nat.ltb_ge in Hl.
    destruct (nth 0 sub Nil) as [| |k| | | | | |] eqn:Hk;
      try (intros [= <- <-]; split; [done|by intros _]).
    intros H. apply IH in H as [H1 H2]. split; [|done].
    intros He. destruct (H1 He) as [Hall ->]. split.
    + constructor; [|done]. by exists sub, k.
    + cbn. by rewrite Hk.
Qed.

Lemma assign_all_app result l1 l2 :
  assign_all result (l1 ++ l2) = assign_all (assign_all result l1) l2.
Proof. apply foldl_app. Qed.

Lemma assign_all_list_to_map result l :
  assign_all result l = list_to_map (reverse l) ∪ result.
Proof.
  revert result. induction l as [|[k v] l IH]; intros result.
  - cbn. by rewrite (left_id_L ∅ (∪)).
  - change (assign_all result ((k, v) :: l))
      with (assign_all (<[k:=v]> result) l).
    rewrite IH, reverse_cons, list_to_map_app. cbn.
    rewrite <- (assoc_L (∪)). f_equal.
    by rewrite insert_empty, <- insert_union_singleton_l.
Qed.

Lemma assign_all_lookup_notin result l k :
  k ∉ l.*1 → assign_all result l !! k = result !! k.
Proof.
  revert result. induction l as [|[k' v] l IH]; intros result Hk; [done|].
  cbn in *. apply not_elem_of_cons in Hk as [Hne Hk].
  unfold assign_all in IH. rewrite IH by done. by rewrite lookup_insert_ne.
Qed.

Lemma assign_all_dom result l :
  dom (assign_all result l) = list_to_set l.*1 ∪ dom result.
Proof.
  rewrite assign_all_list_to_map, dom_union_L, dom_list_to_map_L.
  f_equal. rewrite fmap_reverse. apply set_eq. intros x.
  by rewrite !elem_of_list_to_set, elem_of_reverse.
Qed.

Lemma assign_all_size_le l :
  size (assign_all ∅ l) ≤ length l.
Proof.
  induction l as [|[k v] l IH] using rev_ind; [done|].
  rewrite assign_all_app, length_app. cbn.
  destruct (assign_all ∅ l !! k) eqn:Hk.
  - rewrite map_size_insert_Some by done. lia.
  - rewrite map_size_insert_None by done. lia.
Qed.

Lemma assign_all_size_NoDup l :
  NoDup l.*1 → size (assign_all ∅ l) = length l.
Proof.
  intros Hnd. rewrite assign_all_list_to_map, (right_id_L ∅ (∪)).
  rewrite map_size_list_to_map, length_reverse; [done|].
  by rewrite fmap_reverse, reverse_Permutation.
Qed.

Lemma ParseFlattened_of_ParseAny r arr r' :
  ParseAny r = (Slice arr, None, r') →
  ParseFlattened r
  = (let '(m, err) := flatten_loop arr ∅ in (m, err, r')).
Proof. intros H. unfold ParseFlattened. by rewrite H. Qed.

Lemma length_append (a b : string) :
  String.length (a +:+ b) = String.length a + String.length b.
Proof. induction a as [|c a IH]; simpl; [done|by f_equal]. Qed.

(** A rendered identifier has its five separators. *)
Lemma Sprintf_code_length bs : 5 ≤ String.length (Sprintf_code bs).
Proof. unfold Sprintf_code. rewrite !length_append. cbn. lia. Qed.

Lemma short_string_not_identifier s :
  String.length s < 5 → ¬ is_identifier (Str s).
Proof.
  intros Hs (bs & _ & [= ->]). pose proof (Sprintf_code_length bs). lia.
Qed.

(** ** The checks on the members of the top-level array *)

(** C2, as amended.  Let the loop of [ParseFlattened] reach a member
    [item], all members before it accepted.  A member that is not an array
    gives the error of a sub-level member that is not an array; an array of
    fewer than two members gives the error of too few entries; an array of
    two members or more gives the error of an unusable key exactly when its
    first member is not a string.  A first member that is a string is taken
    as the key, whichever of [ParseCode], [ParseString] and [ParseEnum]
    produced it, and the loop goes on with the members after it. *)
Theorem flatten_member_checks r pre item post r' :
  ParseAny r = (Slice (pre ++ item :: post), None, r') →
  Forall item_accepted pre →
  ((∀ sub, item ≠ Slice sub) →
   ParseFlattened r
   = (None, Some (Errorf "sub-level data not of array type"), r'))
  ∧ (∀ sub, item = Slice sub → length sub < 2 →
     ParseFlattened r
     = (None,
        Some (Errorf "sub-level data does not contain at least two entries"),
        r'))
  ∧ (∀ sub, item = Slice sub → 2 ≤ length sub →
     (flatten_loop (pre ++ [item]) ∅
      = (None, Some (Errorf "first entry not string type; unusable as key"))
      ↔ ∀ key, nth 0 sub Nil ≠ Str key)
     ∧ ((∀ key, nth 0 sub Nil ≠ Str key) →
        ParseFlattened r
        = (None,
           Some (Errorf "first entry not string type; unusable as key"), r'))
     ∧ (∀ key, nth 0 sub Nil = Str key →
        ParseFlattened r
        = (let '(m, err) :=
             flatten_loop post
               (<[key := nth 1 sub Nil]> (assign_all ∅ (entries pre)))
           in (m, err, r')))).
Proof.
  intros HP Hpre. rewrite (ParseFlattened_of_ParseAny _ _ _ HP).
  rewrite !flatten_loop_app by done. cbn [flatten_loop]. split_and!.
  - intros Hn. destruct item; try done. by destruct (Hn arr).
  - intros sub -> Hl. by apply Nat.ltb_lt in Hl as ->.
  - intros sub -> Hl. assert ((length sub <? 2) = false) as Hl'
      by (apply Nat.ltb_ge; lia).
    rewrite Hl'. split_and!.
    + destruct (nth 0 sub Nil) eqn:Hk; split; try done.
      intros H. by destruct (H s).
    + intros Hk. destruct (nth 0 sub Nil); try done. by destruct (Hk s).
    + by intros key ->.
Qed.

Lemma flatten_member_checks_witness :
  ParseFlattened
    (bytes [1; 2; 2; 2; 9; 6; 1; 0; 32; 7; 0; 255; 17; 1;
            2; 2; 17; 1; 17; 2; 77]%N)
  = (None, Some (Errorf "first entry not string type; unusable as key"),
     bytes [77]%N).
Proof.
  eapply (flatten_member_checks _ [Slice [Str "1-0:32.7.0.255"; Uint8 1]]
            (Slice [Uint8 1; Uint8 2]) []).
  - vm_compute. reflexivity.
  - repeat constructor. eexists _, _. split_and!; [reflexivity|cbn; lia|reflexivity].
  - reflexivity.
  - cbn. lia.
  - intros key. discriminate.
Defined.

(** C2, as stated, fails.  A member whose first member is a text (tag 10)
    or a unit (tag 22) is accepted and keyed by that string: no error of an
    unusable key, although "A" and "V" are not identifiers.  And a member
    that is not an array, after a member that is too short, does not give
    the error of a member that is not an array: the loop returned before. *)
Lemma text_and_unit_keys_accepted :
  ParseFlattened (bytes [1; 1; 2; 2; 10; 1; 65; 0]%N)
  = (Some {[ "A"%string := Nil ]}, None, [])
  ∧ ParseAny (bytes [10; 1; 65]%N) = (Str "A", None, [])
  ∧ ¬ is_identifier (Str "A")
  ∧ ParseFlattened (bytes [1; 1; 2; 2; 22; 35; 0]%N)
    = (Some {[ "V"%string := Nil ]}, None, [])
  ∧ ParseAny (bytes [22; 35]%N) = (Str "V", None, [])
  ∧ ¬ is_identifier (Str "V")
  ∧ ParseAny (bytes [1; 2; 2; 0; 17; 1]%N)
    = (Slice [Slice []; Uint8 1], None, [])
  ∧ ParseFlattened (bytes [1; 2; 2; 0; 17; 1]%N)
    = (None,
       Some (Errorf "sub-level data does not contain at least two entries"),
       []).
Proof.
  split_and!; try (vm_compute; reflexivity);
    apply short_string_not_identifier; cbn; lia.
Qed.

Lemma identifier_item_accepted item : identifier_item item → item_accepted item.
Proof. intros (sub & -> & Hl & bs & _ & Hk). by exists sub, (Sprintf_code bs). Qed.

(** ** One entry per identifier *)

(** C4, as amended.  When every member of the decoded top-level array is an
    array of two members or more whose first member is an identifier,
    [ParseFlattened] succeeds.  The keys of its map are exactly the rendered
    identifiers of the members; a key is bound to the second member of the
    last member that carries it; the map has at most one entry per member,
    and exactly one when the identifiers are pairwise different. *)
Theorem flatten_identifier_records r arr r' :
  ParseAny r = (Slice arr, None, r') →
  Forall identifier_item arr →
  ∃ m, ParseFlattened r = (Some m, None, r')
       ∧ dom m = list_to_set (entries arr).*1
       ∧ (∀ item, item ∈ arr →
            ∃ sub bs, item = Slice sub ∧ length bs = 6
                      ∧ nth 0 sub Nil = Str (Sprintf_code bs)
                      ∧ entry item = (Sprintf_code bs, nth 1 sub Nil))
       ∧ (∀ pre item post, arr = pre ++ item :: post →
            (entry item).1 ∉ (entries post).*1 →
            m !! (entry item).1 = Some (entry item).2)
       ∧ size m ≤ length arr
       ∧ (NoDup (entries arr).*1 → size m = length arr).
Proof.
  intros HP Hall. exists (assign_all ∅ (entries arr)).
  assert (Forall item_accepted arr) as Hacc
    by (eapply Forall_impl; [done|apply identifier_item_accepted]).
  split_and!.
  - rewrite (ParseFlattened_of_ParseAny _ _ _ HP).
    by rewrite flatten_loop_accepted.
  - by rewrite assign_all_dom, dom_empty_L, (right_id_L ∅ (∪)).
  - intros item Hin. rewrite Forall_forall in Hall.
    destruct (Hall item Hin) as (sub & -> & Hl & bs & Hbs & Hk).
    exists sub, bs. split_and!; try done. cbn. by rewrite Hk.
  - intros pre item post -> Hk. unfold entries.
    rewrite map_app, assign_all_app. cbn [map].
    change (assign_all ?m (entry item :: ?l))
      with (assign_all (<[(entry item).1 := (entry item).2]> m) l).
    rewrite assign_all_lookup_notin by done. apply lookup_insert_eq.
  - etrans; [apply assign_all_size_le|]. unfold entries. by rewrite length_map.
  - intros Hnd. rewrite assign_all_size_NoDup by done.
    unfold entries. by rewrite length_map.
Qed.

Lemma flatten_identifier_records_witness :
  ∃ m, ParseFlattened
         (bytes [1; 2; 2; 2; 9; 6; 1; 0; 32; 7; 0; 255; 17; 1;
                 2; 3; 9; 6; 1; 0; 31; 7; 0; 255; 17; 2; 22; 33]%N)
       = (Some m, None, [])
       ∧ size m = 2.
Proof.
  destruct (flatten_identifier_records
              (bytes [1; 2; 2; 2; 9; 6; 1; 0; 32; 7; 0; 255; 17; 1;
                      2; 3; 9; 6; 1; 0; 31; 7; 0; 255; 17; 2; 22; 33]%N)
              [Slice [Str "1-0:32.7.0.255"; Uint8 1];
               Slice [Str "1-0:31.7.0.255"; Uint8 2; Str "A"]] [])
    as (m & Hm & _ & _ & _ & _ & Hsize).
  - vm_compute. reflexivity.
  - repeat constructor.
    + eexists. split_and!; [reflexivity|cbn; lia|].
      exists (bytes [1; 0; 32; 7; 0; 255]%N). by split.
    + eexists. split_and!; [reflexivity|cbn; lia|].
      exists (bytes [1; 0; 31; 7; 0; 255]%N). by split.
  - exists m. split; [done|]. apply Hsize.
    apply (bool_decide_unpack _). vm_compute. exact I.
Defined.

(** C4, as stated, fails: two members with the same identifier give a map
    of one entry, bound to the value of the second. *)
Lemma same_identifier_one_entry :
  ParseAny
    (bytes [1; 2; 2; 2; 9; 6; 1; 0; 32; 7; 0; 255; 17; 1;
            2; 2; 9; 6; 1; 0; 32; 7; 0; 255; 17; 2]%N)
  = (Slice [Slice [Str "1-0:32.7.0.255"; Uint8 1];
            Slice [Str "1-0:32.7.0.255"; Uint8 2]], None, [])
  ∧ Forall identifier_item
      [Slice [Str "1-0:32.7.0.255"; Uint8 1];
       Slice [Str "1-0:32.7.0.255"; Uint8 2]]
  ∧ ParseFlattened
      (bytes [1; 2; 2; 2; 9; 6; 1; 0; 32; 7; 0; 255; 17; 1;
              2; 2; 9; 6; 1; 0; 32; 7; 0; 255; 17; 2]%N)
    = (Some {[ "1-0:32.7.0.255"%string := Uint8 2 ]}, None, [])
  ∧ size ({[ "1-0:32.7.0.255"%string := Uint8 2 ]} : gmap string any) = 1.
Proof.
  split_and!; try (vm_compute; reflexivity).
  repeat constructor.
  - eexists. split_and!; [reflexivity|cbn; lia|].
    exists (bytes [1; 0; 32; 7; 0; 255]%N). by split.
  - eexists. split_and!; [reflexivity|cbn; lia|].
    exists (bytes [1; 0; 32; 7; 0; 255]%N). by split.
Qed.

(** ** Trailing bytes *)

Lemma ParseFlattened_success r m r' :
  ParseFlattened r = (Some m, None, r') →
  ∃ arr, ParseAny r = (Slice arr, None, r')
         ∧ flatten_loop arr ∅ = (Some m, None).
Proof.
  unfold ParseFlattened.
  destruct (ParseAny r) as [[v e] r1] eqn:HP.
  destruct v as [|arr| | | | | | |], e; try done.
  destruct (flatten_loop arr ∅) as [m' e'] eqn:Hf.
  intros [= -> -> ->]. by exists arr.
Qed.

(** C10.  When [ParseFlattened] succeeds on a reader, it succeeds with the
    same map on that reader followed by any bytes, which it leaves unread
    after what it left before; so the map that the producer sends for a
    frame does not depend on what the buffer holds after the frame. *)
Theorem ParseFlattened_ignores_trailing r m r' s :
  ParseFlattened r = (Some m, None, r') →
  ParseFlattened (r ++ s) = (Some m, None, r' ++ s)
  ∧ ∀ header st,
      length header = 17 →
      packets (producer_iteration hdlc_nil (header ++ r ++ s) st)
      = packets st ++ [Some m].
Proof.
  intros H. apply ParseFlattened_success in H as (arr & HP & Hf).
  apply ParseAny_exact in HP as (p & -> & _ & Hrun).
  assert (ParseFlattened ((p ++ r') ++ s) = (Some m, None, r' ++ s)) as Hs.
  { rewrite <- app_assoc.
    by rewrite (ParseFlattened_of_ParseAny _ _ _ (Hrun (r' ++ s))), Hf. }
  split; [done|]. intros header st Hl. unfold producer_iteration.
  rewrite <- Hl, drop_app_length. by rewrite Hs.
Qed.

Lemma ParseFlattened_ignores_trailing_witness :
  ParseFlattened (bytes [1; 1; 2; 2; 9; 6; 1; 0; 32; 7; 0; 255; 18; 9; 196]%N
                  ++ bytes [200; 1; 9; 77]%N)
  = (Some {[ "1-0:32.7.0.255"%string := Uint16 2500 ]}, None,
     [] ++ bytes [200; 1; 9; 77]%N).
Proof.
  apply (ParseFlattened_ignores_trailing
           (bytes [1; 1; 2; 2; 9; 6; 1; 0; 32; 7; 0; 255; 18; 9; 196]%N)).
  vm_compute. reflexivity.
Defined.

(** ** What reaches the channel *)

Lemma ParseFlattened_error_no_map r m e r' :
  ParseFlattened r = (m, Some e, r') → m = None.
Proof.
  unfold ParseFlattened.
  destruct (ParseAny r) as [[v e1] r1].
  destruct v as [|arr| | | | | | |], e1; try by intros [= <- _ _].
  destruct (flatten_loop arr ∅) as [m' e'] eqn:Hf.
  intros [= -> -> ->]. by eapply flatten_loop_success.
Qed.

(** [ParseFlattened] on a frame: either the frame passes the check and the
    result is its map without an error, or it does not and the result is an
    error. *)
Lemma ParseFlattened_frame buf :
  (∃ m r', validated buf m
           ∧ ParseFlattened (drop 17 buf) = (Some m, None, r'))
  ∨ ((∀ m, ¬ validated buf m)
     ∧ ∃ e r', ParseFlattened (drop 17 buf) = (None, Some e, r')).
Proof.
  unfold validated.
  destruct (ParseAny (drop 17 buf)) as [[v e] r1] eqn:HP.
  assert (ParseFlattened (drop 17 buf)
          = match ParseAny (drop 17 buf) with
            | (_, Some err, r1) => (None, Some err, r1)
            | (Slice arr, None, r1) =>
                let '(m, err) := flatten_loop arr ∅ in (m, err, r1)
            | (_, None, r1) =>
                (None, Some (Errorf "top-level structure not of array type"), r1)
            end) as HF by done.
  rewrite HP in HF.
  destruct v as [|arr| | | | | | |], e as [e|];
    try (right; split;
         [intros m (arr' & r' & [= ] & _)|by eexists _, _]).
  destruct (flatten_loop arr ∅) as [m' [e'|]] eqn:Hf.
  - right. pose proof (flatten_loop_success _ _ _ _ Hf) as [_ Hm].
    rewrite (Hm (mk_is_Some _ _ eq_refl)) in HF. split; [|by eexists _, _].
    intros m (arr' & r' & [= <- <-] & Hall & _).
    rewrite flatten_loop_accepted in Hf by done. discriminate.
  - left. pose proof (flatten_loop_success _ _ _ _ Hf) as [Hm _].
    destruct (Hm eq_refl) as [Hall ->].
    exists (assign_all ∅ (entries arr)), r1. split; [|done].
    by exists arr, r1.
Qed.

Lemma validated_unique buf m m' : validated buf m → validated buf m' → m = m'.
Proof.
  intros (arr & r' & HP & _ & ->) (arr' & r'' & HP' & _ & ->).
  rewrite HP in HP'. by injection HP' as <- _.
Qed.

Lemma producer_iteration_valid buf st m :
  validated buf m →
  producer_iteration hdlc_nil buf st
  = mkPipeline (S (msgCounter st)) (resyncCounter st) (abortCounter st)
               (parseErrorCounter st) (packets st ++ [Some m]).
Proof.
  intros Hv. unfold producer_iteration.
  destruct (ParseFlattened_frame buf) as [(m' & r' & Hv' & ->)|[Hn _]].
  - by rewrite (validated_unique _ _ _ Hv Hv').
  - by destruct (Hn m).
Qed.

Lemma producer_iteration_invalid buf st :
  (∀ m, ¬ validated buf m) →
  producer_iteration hdlc_nil buf st
  = mkPipeline (msgCounter st) (resyncCounter st) (abortCounter st)
               (S (parseErrorCounter st)) (packets st).
Proof.
  intros Hn. unfold producer_iteration.
  destruct (ParseFlattened_frame buf) as [(m' & r' & Hv' & _)|[_ (e & r' & ->)]].
  - by destruct (Hn m').
  - done.
Qed.

Lemma producer_iteration_no_frame err buf st :
  err ≠ hdlc_nil → packets (producer_iteration err buf st) = packets st.
Proof. by destruct err. Qed.

Lemma producer_run_sends reads st :
  ∃ ps, run_sends reads ps
        ∧ packets (producer_run reads st) = packets st ++ ps.
Proof.
  revert st. induction reads as [|[err buf] reads IH]; intros st.
  { exists []. split; [constructor|]. cbn. by rewrite app_nil_r. }
  change (producer_run ((err, buf) :: reads) st)
    with (producer_run reads (producer_iteration err buf st)).
  destruct (IH (producer_iteration err buf st)) as (ps & Hps & ->).
  destruct err.
  - destruct (ParseFlattened_frame buf) as [(m & r' & Hv & _)|[Hn _]].
    + exists (Some m :: ps). split; [by apply run_sends_valid|].
      rewrite (producer_iteration_valid _ _ _ Hv). cbn.
      by rewrite <- app_assoc.
    + exists ps. split; [by apply run_sends_invalid|].
      by rewrite (producer_iteration_invalid _ _ Hn).
  - exists ps. split; [by apply run_sends_no_frame|done].
  - exists ps. split; [by apply run_sends_no_frame|done].
  - exists ps. split; [by apply run_sends_no_frame|done].
Qed.

(** C9, as amended.  An error of [ParseFlattened] comes with no map at all.
    The producer then counts a parse error and sends nothing; it sends a
    map only when [ParseFlattened] returned without an error.  That is so
    exactly when the frame passes the whole check: the value decoded from
    this very frame is an array, and each of its members an array of two
    members or more whose first member is a string (an identifier, a text
    or a unit: the three are strings alike); the map sent is then the map
    of all the members of this frame.  A frame that does not pass the check
    sends nothing, and so, read by read, the channel holds after any run the
    maps of the frames that passed, each the map of its own frame, in the
    order of the frames. *)
Theorem channel_only_validated :
  (∀ r m e r', ParseFlattened r = (m, Some e, r') → m = None)
  ∧ (∀ buf st e,
       snd (fst (ParseFlattened (drop 17 buf))) = Some e →
       producer_iteration hdlc_nil buf st
       = mkPipeline (msgCounter st) (resyncCounter st) (abortCounter st)
                    (S (parseErrorCounter st)) (packets st))
  ∧ (∀ buf st,
       snd (fst (ParseFlattened (drop 17 buf))) = None →
       producer_iteration hdlc_nil buf st
       = mkPipeline (S (msgCounter st)) (resyncCounter st) (abortCounter st)
                    (parseErrorCounter st)
                    (packets st ++ [fst (fst (ParseFlattened (drop 17 buf)))]))
  ∧ (∀ buf,
       (∃ m r', validated buf m
                ∧ ParseFlattened (drop 17 buf) = (Some m, None, r'))
       ∨ ((∀ m, ¬ validated buf m)
          ∧ ∃ e r', ParseFlattened (drop 17 buf) = (None, Some e, r')))
  ∧ (∀ buf st m,
       validated buf m →
       producer_iteration hdlc_nil buf st
       = mkPipeline (S (msgCounter st)) (resyncCounter st) (abortCounter st)
                    (parseErrorCounter st) (packets st ++ [Some m]))
  ∧ (∀ buf st,
       (∀ m, ¬ validated buf m) →
       producer_iteration hdlc_nil buf st
       = mkPipeline (msgCounter st) (resyncCounter st) (abortCounter st)
                    (S (parseErrorCounter st)) (packets st))
  ∧ (∀ err buf st,
       err ≠ hdlc_nil → packets (producer_iteration err buf st) = packets st)
  ∧ (∀ reads, run_sends reads (packets (producer_run reads pipeline_start))).
Proof.
  split_and!.
  - apply ParseFlattened_error_no_map.
  - intros buf st e. unfold producer_iteration.
    destruct (ParseFlattened (drop 17 buf)) as [[m [e'|]] r']; cbn; [done|].
    discriminate.
  - intros buf st. unfold producer_iteration.
    destruct (ParseFlattened (drop 17 buf)) as [[m [e'|]] r']; cbn; [|done].
    discriminate.
  - apply ParseFlattened_frame.
  - apply producer_iteration_valid.
  - apply producer_iteration_invalid.
  - apply producer_iteration_no_frame.
  - intros reads.
    destruct (producer_run_sends reads pipeline_start) as (ps & Hps & ->).
    done.
Qed.

(** C9, as stated, fails: a frame whose single member is keyed by a text is
    sent on the channel, and the first member of that member is not an
    identifier. *)
Lemma text_keyed_record_sent :
  packets (producer_iteration hdlc_nil
             (replicate 17 x00 ++ bytes [1; 1; 2; 2; 10; 1; 65; 17; 5]%N)
             pipeline_start)
  = [Some {[ "A"%string := Uint8 5 ]}]
  ∧ ParseAny (bytes [1; 1; 2; 2; 10; 1; 65; 17; 5]%N)
    = (Slice [Slice [Str "A"; Uint8 5]], None, [])
  ∧ ¬ Forall identifier_item [Slice [Str "A"; Uint8 5]].
Proof.
  split_and!; try (vm_compute; reflexivity).
  intros H. apply Forall_cons in H as [(sub & [= <-] & _ & Hid) _].
  revert Hid. apply short_string_not_identifier. cbn. lia.
Qed.

(** * Further properties of the decoder, the consumer and the producer *)

Lemma ReadFull_short len r :
  length r < len →
  ∃ buf, ReadFull len r
         = (buf, Some (if r is [] then EOF else ErrUnexpectedEOF), []).
Proof.
  intros Hlt. unfold ReadFull. destruct len as [|len]; [lia|].
  destruct r as [|b r]; [by eexists|].
  assert ((S len <=? length (b :: r)) = false) as ->
    by (apply Nat.leb_gt; lia).
  by eexists.
Qed.

Lemma ReadFull_enough len r :
  len ≤ length r → ReadFull len r = (take len r, None, drop len r).
Proof.
  intros Hle. pose proof (ReadFull_run (take len r) (drop len r)) as H.
  by rewrite take_drop, length_take_le in H.
Qed.

(** X1.  [ParseString] on an empty reader fails with io.EOF.  With a length
    byte [n] and fewer than [n] bytes after it, it fails with the error of
    the read and leaves the reader empty.  With [n] bytes or more, it
    returns a string of exactly those [n] bytes, none changed or dropped,
    and leaves the reader right after them. *)
Theorem ParseString_cases n rest :
  let len := N.to_nat (byte_val n) in
  ParseString [] = (EmptyString, Some EOF, [])
  ∧ (length rest < len →
     ParseString (n :: rest)
     = (EmptyString, Some (if rest is [] then EOF else ErrUnexpectedEOF), []))
  ∧ (len ≤ length rest →
     ∃ s, ParseString (n :: rest) = (s, None, drop len rest)
          ∧ list_byte_of_string s = take len rest
          ∧ String.length s = len).
Proof.
  intros len. split_and!; [done|..].
  - intros Hlt. unfold ParseString. rewrite ReadFull_1_cons. cbn [at_ nth].
    fold len. by destruct (ReadFull_short len rest Hlt) as [buf ->].
  - intros Hle. unfold ParseString. rewrite ReadFull_1_cons. cbn [at_ nth].
    fold len. rewrite ReadFull_enough by done. eexists. split_and!; [done|..].
    + apply list_byte_of_string_of_list_byte.
    + rewrite <- (length_take_le rest len) at 2 by done.
      generalize (take len rest). intros l.
      unfold string_of_list_byte. induction l as [|c l IH]; cbn; [done|].
      by rewrite IH.
Qed.

Lemma ParseString_cases_witness :
  ParseString (bytes [3; 65; 66]%N) = (EmptyString, Some ErrUnexpectedEOF, [])
  ∧ ∃ s, ParseString (bytes [2; 65; 66; 67]%N) = (s, None, bytes [67]%N)
         ∧ list_byte_of_string s = bytes [65; 66]%N
         ∧ String.length s = 2.
Proof.
  split.
  - apply (ParseString_cases x03 (bytes [65; 66]%N)). cbn. lia.
  - apply (ParseString_cases x02 (bytes [65; 66; 67]%N)). cbn. lia.
Defined.

(** ** The fixed-width integers *)

Lemma lor_shiftl_add a b k :
  (0 ≤ a < 2 ^ k)%Z → (0 ≤ k)%Z → Z.lor a (Z.shiftl b k) = (a + b * 2 ^ k)%Z.
Proof.
  intros Ha Hk. rewrite <- Z.add_lor_land, Z.shiftl_mul_pow2 by done.
  assert (Z.land a (b * 2 ^ k) = 0%Z) as ->; [|lia].
  apply Z.bits_inj'. intros n Hn. rewrite Z.land_spec, Z.bits_0.
  destruct (Z.lt_ge_cases n k) as [Hlt|Hge].
  - rewrite Z.mul_pow2_bits_low by done. apply andb_false_r.
  - assert (Z.testbit a n = false) as ->; [|done].
    apply Z.testbit_false; [done|]. rewrite Z.div_small; [done|].
    split; [lia|]. apply Z.lt_le_trans with (2 ^ k)%Z; [lia|].
    apply Z.pow_le_mono_r; lia.
Qed.

Lemma bnum_range b : (0 ≤ bnum b < 2 ^ 8)%Z.
Proof.
  unfold bnum, byte_val. pose proof (Byte.to_N_bounded b). lia.
Qed.

Lemma BigEndian_Uint16_value b0 b1 :
  BigEndian_Uint16 [b0; b1] = (bnum b0 * 2 ^ 8 + bnum b1)%Z.
Proof.
  unfold BigEndian_Uint16, bz, at_. cbn [nth]. fold (bnum b0) (bnum b1).
  rewrite lor_shiftl_add by (pose proof (bnum_range b1); lia). lia.
Qed.

Lemma BigEndian_Uint32_value b0 b1 b2 b3 :
  BigEndian_Uint32 [b0; b1; b2; b3]
  = (bnum b0 * 2 ^ 24 + bnum b1 * 2 ^ 16 + bnum b2 * 2 ^ 8 + bnum b3)%Z.
Proof.
  unfold BigEndian_Uint32, bz, at_. cbn [nth].
  fold (bnum b0) (bnum b1) (bnum b2) (bnum b3).
  pose proof (bnum_range b0). pose proof (bnum_range b1).
  pose proof (bnum_range b2). pose proof (bnum_range b3).
  rewrite (lor_shiftl_add (bnum b3)) by lia.
  rewrite (lor_shiftl_add _ (bnum b1)) by lia.
  rewrite (lor_shiftl_add _ (bnum b0)) by lia. lia.
Qed.

Lemma binary_Read_cons size decode r :
  size ≤ length r →
  binary_Read size decode r = (decode (take size r), None, drop size r).
Proof. intros H. unfold binary_Read. by rewrite ReadFull_enough. Qed.

(** X2.  On enough bytes the six integer decoders read 1, 2 or 4 bytes and
    give the big-endian number they spell: the unsigned ones as it is, the
    signed ones less 2^8, 2^16 or 2^32 when the top bit is set. *)
Theorem fixed_integers_big_endian b0 b1 b2 b3 s :
  let u16 := (bnum b0 * 2 ^ 8 + bnum b1)%Z in
  let u32 :=
    (bnum b0 * 2 ^ 24 + bnum b1 * 2 ^ 16 + bnum b2 * 2 ^ 8 + bnum b3)%Z in
  ParseUint8 (b0 :: s) = (Uint8 (bnum b0), None, s)
  ∧ ParseInt8 (b0 :: s)
    = (Int8 (if (bnum b0 <? 2 ^ 7)%Z then bnum b0 else bnum b0 - 2 ^ 8), None, s)
  ∧ ParseUint16 (b0 :: b1 :: s) = (Uint16 u16, None, s)
  ∧ ParseInt16 (b0 :: b1 :: s)
    = (Int16 (if (u16 <? 2 ^ 15)%Z then u16 else u16 - 2 ^ 16), None, s)
  ∧ ParseUint32 (b0 :: b1 :: b2 :: b3 :: s) = (Uint32 u32, None, s)
  ∧ ParseInt32 (b0 :: b1 :: b2 :: b3 :: s)
    = (Int32 (if (u32 <? 2 ^ 31)%Z then u32 else u32 - 2 ^ 32), None, s).
Proof.
  intros u16 u32.
  unfold ParseUint8, ParseInt8, ParseUint16, ParseInt16, ParseUint32, ParseInt32.
  rewrite !binary_Read_cons by (cbn; lia). cbn [take drop wrap].
  rewrite !BigEndian_Uint16_value, !BigEndian_Uint32_value.
  fold u16 u32. unfold to_signed, bz, at_. cbn [nth]. fold (bnum b0).
  split_and!; try done; do 2 f_equal; f_equal.
  - destruct (2 ^ (8 - 1) <=? bnum b0)%Z eqn:H1, (bnum b0 <? 2 ^ 7)%Z eqn:H2;
      lia.
  - destruct (2 ^ (16 - 1) <=? u16)%Z eqn:H1, (u16 <? 2 ^ 15)%Z eqn:H2; lia.
  - destruct (2 ^ (32 - 1) <=? u32)%Z eqn:H1, (u32 <? 2 ^ 31)%Z eqn:H2; lia.
Qed.

Lemma binary_Read_short size decode r :
  length r < size →
  binary_Read size decode r
  = (0%Z, Some (if r is [] then EOF else ErrUnexpectedEOF), []).
Proof.
  intros H. unfold binary_Read. by destruct (ReadFull_short size r H) as [buf ->].
Qed.

(** X3.  On fewer bytes than its width, an integer decoder returns the zero
    of its type with io.EOF (no byte at all) or io.ErrUnexpectedEOF (some),
    and leaves the reader empty. *)
Theorem fixed_integers_short_input r :
  let e := Some (if r is [] then EOF else ErrUnexpectedEOF) in
  (length r < 1 → ParseUint8 r = (Uint8 0, e, []) ∧ ParseInt8 r = (Int8 0, e, []))
  ∧ (length r < 2 →
     ParseUint16 r = (Uint16 0, e, []) ∧ ParseInt16 r = (Int16 0, e, []))
  ∧ (length r < 4 →
     ParseUint32 r = (Uint32 0, e, []) ∧ ParseInt32 r = (Int32 0, e, [])).
Proof.
  intros e.
  unfold ParseUint8, ParseInt8, ParseUint16, ParseInt16, ParseUint32, ParseInt32.
  split_and!; intros H; by rewrite !binary_Read_short.
Qed.

Lemma fixed_integers_short_input_witness :
  ParseUint16 (bytes [9]%N) = (Uint16 0, Some ErrUnexpectedEOF, [])
  ∧ ParseInt32 [] = (Int32 0, Some EOF, []).
Proof.
  split.
  - apply (fixed_integers_short_input (bytes [9]%N)). cbn. lia.
  - apply (fixed_integers_short_input []). cbn. lia.
Defined.

(** ** The range of the decoded integers *)

Lemma in_range_Slice arr : in_range (Slice arr) ↔ Forall in_range arr.
Proof.
  cbn. induction arr as [|x arr IH]; [by split; [constructor|]|].
  rewrite Forall_cons. by rewrite IH.
Qed.

Lemma bz_range bs i : (0 ≤ bz bs i < 2 ^ 8)%Z.
Proof. apply (bnum_range (at_ bs i)). Qed.

Lemma BigEndian_Uint16_range bs : (0 ≤ BigEndian_Uint16 bs < 2 ^ 16)%Z.
Proof.
  unfold BigEndian_Uint16. pose proof (bz_range bs 0). pose proof (bz_range bs 1).
  rewrite lor_shiftl_add by lia. lia.
Qed.

Lemma BigEndian_Uint32_range bs : (0 ≤ BigEndian_Uint32 bs < 2 ^ 32)%Z.
Proof.
  unfold BigEndian_Uint32. pose proof (bz_range bs 0). pose proof (bz_range bs 1).
  pose proof (bz_range bs 2). pose proof (bz_range bs 3).
  rewrite (lor_shiftl_add (bz bs 3)) by lia.
  rewrite (lor_shiftl_add _ (bz bs 1)) by lia.
  rewrite (lor_shiftl_add _ (bz bs 0)) by lia. lia.
Qed.

Lemma binary_Read_value size decode r z e r' (P : Z → Prop) :
  binary_Read size decode r = (z, e, r') → P 0%Z → (∀ bs, P (decode bs)) → P z.
Proof.
  unfold binary_Read. destruct (ReadFull size r) as [[bs [e1|]] r1];
    intros [= <- _ _]; auto.
Qed.

Lemma integers_in_range r v :
  v = fst (fst (ParseUint8 r)) ∨ v = fst (fst (ParseUint16 r))
  ∨ v = fst (fst (ParseUint32 r)) ∨ v = fst (fst (ParseInt8 r))
  ∨ v = fst (fst (ParseInt16 r)) ∨ v = fst (fst (ParseInt32 r)) →
  in_range v.
Proof.
  unfold ParseUint8, ParseInt8, ParseUint16, ParseInt16, ParseUint32, ParseInt32.
  intros H. decompose [or] H; clear H; subst v;
    match goal with
    | |- context [binary_Read ?n ?d r] =>
        destruct (binary_Read n d r) as [[z e0] r0] eqn:Hb
    end; cbn [wrap fst in_range];
    (pattern z; eapply binary_Read_value; [exact Hb|cbn; lia|intros bs]);
    unfold to_signed;
    pose proof (bz_range bs 0); pose proof (BigEndian_Uint16_range bs);
    pose proof (BigEndian_Uint32_range bs);
    try case_match; lia.
Qed.

Lemma ParseEnum_in_range r v e r' : ParseEnum r = (v, e, r') → in_range v.
Proof.
  unfold ParseEnum. destruct (ReadFull 1 r) as [[buf [e1|]] r1].
  - by intros [= <- _ _].
  - destruct (at_ buf 0); cbv [byte_val Byte.to_N]; by intros [= <- _ _].
Qed.

Lemma ParseArray_loop_in_range elem n i arr r v e r' :
  (∀ r v e r', elem r = Some (v, e, r') → in_range v) →
  Forall in_range arr →
  ParseArray_loop elem n i arr r = Some (v, e, r') → in_range v.
Proof.
  intros He. revert i arr r. induction n as [|n IH]; intros i arr r Harr; cbn.
  - intros [= <- _ _]. by apply in_range_Slice.
  - destruct (elem r) as [[[v1 e1] r1]|] eqn:H1; [|done].
    apply He in H1.
    assert (Forall in_range (<[i:=v1]> arr)) by by apply Forall_insert.
    destruct e1; [|by apply IH].
    intros [= <- _ _]. by apply in_range_Slice.
Qed.

Lemma ParseAny_fuel_in_range fuel r v e r' :
  ParseAny_fuel fuel r = Some (v, e, r') → in_range v.
Proof.
  revert r v e r'. induction fuel as [|fuel IH]; intros r v e r' H; [done|].
  destruct r as [|b r1].
  { rewrite ParseAny_fuel_nil in H. by simplify_eq. }
  rewrite ParseAny_fuel_cons in H.
  destruct (ParseAny_switch_step (ParseArray (ParseAny_fuel fuel)) b r1)
    as [_ Hx|_ Hx|_ Hx|_ Hx|_ Hx|_ Hx|_ Hx|_ Hx|_ Hx|_ Hx|_ Hx|_ Hx];
    rewrite Hx in H; clear Hx.
  1, 12: by simplify_eq.
  1: { unfold ParseArray in H.
       destruct (ReadFull 1 r1) as [[buf [e1|]] r2]; [by simplify_eq|].
       eapply ParseArray_loop_in_range; [exact IH| |exact H].
       by apply Forall_replicate. }
  1, 2: injection H as H; by apply of_string_inv in H as (? & _ & ->).
  7: { injection H as H. by eapply ParseEnum_in_range. }
  all: injection H as H; apply (integers_in_range r1); rewrite H; cbn; tauto.
Qed.


(** ** Every layout decodes *)

Lemma byte_val_inj b c : byte_val b = byte_val c → b = c.
Proof.
  unfold byte_val. intros H. pose proof (Byte.of_to_N b) as Hb.
  rewrite H, Byte.of_to_N in Hb. congruence.
Qed.

Lemma ParseAny_of_switch b r x :
  ParseAny_switch (ParseArray (λ r, Some (ParseAny r))) b r = Some x →
  ParseAny (b :: r) = x.
Proof. rewrite ParseAny_cons. by intros [= ->]. Qed.

Lemma ParseArray_loop_decodes elem ps vs :
  Forall2 (λ p v, ∀ s, elem (p ++ s) = Some (v, None, s)) ps vs →
  ∀ i arr s, length arr = i + length vs →
    ParseArray_loop elem (length vs) i arr (concat ps ++ s)
    = Some (Slice (take i arr ++ vs), None, s).
Proof.
  induction 1 as [|p v ps vs Hp _ IH]; intros i arr s Hl; cbn in *.
  - rewrite take_ge by lia. by rewrite app_nil_r.
  - rewrite <- app_assoc, Hp, IH by (rewrite length_insert; lia).
    rewrite (take_S_r _ _ v) by (apply list_lookup_insert_eq; lia).
    rewrite take_insert_ge by lia. by rewrite <- app_assoc.
Qed.

Lemma Forall2_wire_bounded (Q : list byte → any → Prop) ps vs :
  Forall2 wire ps vs →
  (∀ p v, length p ≤ length (concat ps) → wire p v → Q p v) →
  Forall2 Q ps vs.
Proof.
  induction 1 as [|p v ps vs Hp _ IH]; intros HQ; constructor.
  - apply HQ; [|done]. cbn. rewrite length_app. lia.
  - apply IH. intros p' v' Hl. apply HQ. cbn. rewrite length_app. lia.
Qed.

Lemma wire_decodes_bounded n p v :
  length p ≤ n → wire p v → ∀ s, ParseAny (p ++ s) = (v, None, s).
Proof.
  revert p v. induction n as [|n IH]; intros p v Hn Hw.
  { destruct Hw; cbn in Hn; lia. }
  destruct Hw as [|tag cnt ps vs Htag Hcnt Hws|bs Hl|tag k bs Htag Hl
                 |bs Hl|bs Hl|bs Hl|bs Hl|bs Hl|bs Hl|b v Hv];
    intros s; cbn [app]; apply ParseAny_of_switch.
  - done.
  - assert (ParseAny_switch (ParseArray (λ r, Some (ParseAny r))) tag
              (cnt :: concat ps ++ s)
            = ParseArray (λ r, Some (ParseAny r)) (cnt :: concat ps ++ s)) as ->.
    { destruct Htag as [H|H];
        [apply (byte_val_inj tag x01) in H|apply (byte_val_inj tag x02) in H];
        by subst tag. }
    unfold ParseArray. rewrite ReadFull_1_cons. cbn [at_ nth]. rewrite Hcnt.
    rewrite (ParseArray_loop_decodes _ ps vs); [done| |by rewrite length_replicate].
    apply Forall2_wire_bounded; [done|]. intros p' v' Hl' Hw' s'.
    f_equal. apply IH; [|done]. cbn in Hn. lia.
  - change (Some (of_string (ParseCode (x06 :: bs ++ s)))
            = Some (Str (Sprintf_code bs), None, s)).
    by rewrite ParseCode_run.
  - assert (ParseAny_switch (ParseArray (λ r, Some (ParseAny r))) tag
              (k :: bs ++ s)
            = Some (of_string (ParseString (k :: bs ++ s)))) as ->.
    { destruct Htag as [H|H];
        [apply (byte_val_inj tag x0a) in H|apply (byte_val_inj tag x0c) in H];
        by subst tag. }
    by rewrite ParseString_run.
  - change (Some (ParseInt8 (bs ++ s)) = Some (Int8 (to_signed 8 (bz bs 0)), None, s)).
    unfold ParseInt8. by rewrite <- Hl, binary_Read_run.
  - change (Some (ParseInt16 (bs ++ s))
            = Some (Int16 (to_signed 16 (BigEndian_Uint16 bs)), None, s)).
    unfold ParseInt16. by rewrite <- Hl, binary_Read_run.
  - change (Some (ParseUint8 (bs ++ s)) = Some (Uint8 (bz bs 0), None, s)).
    unfold ParseUint8. by rewrite <- Hl, binary_Read_run.
  - change (Some (ParseUint16 (bs ++ s))
            = Some (Uint16 (BigEndian_Uint16 bs), None, s)).
    unfold ParseUint16. by rewrite <- Hl, binary_Read_run.
  - change (Some (ParseInt32 (bs ++ s))
            = Some (Int32 (to_signed 32 (BigEndian_Uint32 bs)), None, s)).
    unfold ParseInt32. by rewrite <- Hl, binary_Read_run.
  - change (Some (ParseUint32 (bs ++ s))
            = Some (Uint32 (BigEndian_Uint32 bs), None, s)).
    unfold ParseUint32. by rewrite <- Hl, binary_Read_run.
  - change (Some (ParseEnum (b :: s)) = Some (v, None, s)).
    apply ParseEnum_ok in Hv as (c & [= <-] & Hrun). by rewrite Hrun.
Qed.

Lemma wire_decodes p v s : wire p v → ParseAny (p ++ s) = (v, None, s).
Proof. intros Hw. by apply (wire_decodes_bounded (length p)). Qed.

(** X5.  [ParseAny] succeeds with a value and a rest exactly when the reader
    is a layout of that value followed by that rest: every layout decodes,
    and nothing else does. *)
Theorem ParseAny_success_iff_layout r v r' :
  ParseAny r = (v, None, r') ↔ ∃ p, r = p ++ r' ∧ wire p v.
Proof.
  split.
  - intros H. apply ParseAny_exact in H as (p & -> & Hw & _). eauto.
  - intros (p & -> & Hw). by apply wire_decodes.
Qed.

(** X6.  The format delimits itself: a layout followed by more bytes is a
    layout again only when no byte follows, and then of the same value. *)
Theorem layout_self_delimiting p q v v' :
  wire p v → wire (p ++ q) v' → q = [] ∧ v = v'.
Proof.
  intros Hp Hq. pose proof (wire_decodes _ _ q Hp) as H1.
  pose proof (wire_decodes _ _ [] Hq) as H2. rewrite app_nil_r in H2.
  rewrite H1 in H2. by simplify_eq.
Qed.

Lemma layout_self_delimiting_witness :
  ([] : list byte) = [] ∧ Uint8 7 = Uint8 7.
Proof.
  apply (layout_self_delimiting (bytes [17; 7]%N) [] (Uint8 7) (Uint8 7));
    exact (wire_uint8 [x07] eq_refl).
Defined.

(** ** Truncated records *)

Lemma read_error_short (r : reader) :
  read_error (if r is [] then EOF else ErrUnexpectedEOF).
Proof. destruct r; [by left|by right]. Qed.

Lemma ParseString_short n rest :
  length rest < N.to_nat (byte_val n) →
  ∃ e, ParseString (n :: rest) = (EmptyString, Some e, []) ∧ read_error e.
Proof.
  intros Hlt. unfold ParseString. rewrite ReadFull_1_cons. cbn [at_ nth].
  destruct (ReadFull_short _ rest Hlt) as [buf ->]. eexists. split; [done|].
  apply read_error_short.
Qed.

Lemma ParseCode_short n rest :
  length rest < N.to_nat (byte_val n) →
  ∃ e, ParseCode (n :: rest) = (EmptyString, Some e, []) ∧ read_error e.
Proof.
  intros Hlt. unfold ParseCode. rewrite ReadFull_1_cons. cbn [at_ nth].
  destruct (ReadFull_short _ rest Hlt) as [buf ->]. eexists. split; [done|].
  apply read_error_short.
Qed.

Lemma ParseArray_loop_truncated elem ps vs :
  Forall2 (λ p v,
    (∀ s, elem (p ++ s) = Some (v, None, s))
    ∧ (∀ q t, p = q ++ t → t ≠ [] →
         ∃ v' e, elem q = Some (v', Some e, []) ∧ read_error e)) ps vs →
  ∀ q t, concat ps = q ++ t → t ≠ [] →
  ∀ i arr, ∃ arr' e,
    ParseArray_loop elem (length vs) i arr q = Some (Slice arr', Some e, [])
    ∧ read_error e.
Proof.
  induction 1 as [|p v ps vs [Hrun Hcut] _ IH]; intros q t Hq Ht i arr.
  { cbn in Hq. symmetry in Hq. apply app_eq_nil in Hq as [_ ?]. done. }
  cbn [concat length ParseArray_loop] in *.
  apply app_eq_inv in Hq as [(k & Hp & ->)|(k & -> & Hk)].
  - destruct k as [|c k].
    + rewrite app_nil_r in Hp. subst q.
      pose proof (Hrun []) as H0. rewrite app_nil_r in H0. rewrite H0.
      by apply (IH [] (concat ps)).
    + destruct (Hcut q (c :: k) Hp) as (v' & e & -> & He); [done|].
      by eexists _, _.
  - rewrite Hrun. by apply (IH k t).
Qed.

(** The cases of [ParseAny] on a tag, without the bound. *)
Lemma ParseAny_tag_array tag r :
  byte_val tag = 1%N ∨ byte_val tag = 2%N →
  ParseArray (λ r, Some (ParseAny r)) r = Some (ParseAny (tag :: r)).
Proof.
  intros Htag. rewrite <- ParseAny_cons.
  destruct Htag as [H|H];
    [apply (byte_val_inj tag x01) in H|apply (byte_val_inj tag x02) in H];
    by subst tag.
Qed.

Lemma ParseAny_tag_text tag r :
  byte_val tag = 10%N ∨ byte_val tag = 12%N →
  ParseAny (tag :: r) = of_string (ParseString r).
Proof.
  intros Htag. apply ParseAny_of_switch.
  destruct Htag as [H|H];
    [apply (byte_val_inj tag x0a) in H|apply (byte_val_inj tag x0c) in H];
    by subst tag.
Qed.

Lemma ParseAny_tag_scalar r :
  ParseAny (x09 :: r) = of_string (ParseCode r)
  ∧ ParseAny (x0f :: r) = ParseInt8 r ∧ ParseAny (x10 :: r) = ParseInt16 r
  ∧ ParseAny (x11 :: r) = ParseUint8 r ∧ ParseAny (x12 :: r) = ParseUint16 r
  ∧ ParseAny (x05 :: r) = ParseInt32 r ∧ ParseAny (x06 :: r) = ParseUint32 r
  ∧ ParseAny (x16 :: r) = ParseEnum r.
Proof. split_and!; by apply ParseAny_of_switch. Qed.

Lemma int_short c size decode q t bs :
  bs = q ++ t → t ≠ [] → length bs = size →
  ∃ v' e, wrap c (binary_Read size decode q) = (v', Some e, [])
          ∧ read_error e.
Proof.
  intros -> Ht Hl. rewrite binary_Read_short.
  - eexists _, _. split; [done|]. apply read_error_short.
  - rewrite length_app in Hl. destruct t; [done|]. cbn in Hl. lia.
Qed.

Lemma wire_truncated_bounded n p v :
  length p ≤ n → wire p v →
  ∀ q t, p = q ++ t → t ≠ [] →
    ∃ v' e, ParseAny q = (v', Some e, []) ∧ read_error e.
Proof.
  revert p v. induction n as [|n IH]; intros p v Hn Hw.
  { destruct Hw; cbn in Hn; lia. }
  intros q t Hq Ht. destruct q as [|b q].
  { exists Nil, EOF. split; [done|by left]. }
  pose proof (ParseAny_tag_scalar q)
    as (Hcode & Hi8 & Hi16 & Hu8 & Hu16 & Hi32 & Hu32 & Henum).
  destruct Hw as [|tag cnt ps vs Htag Hcnt Hws|bs Hl|tag k bs Htag Hl
                 |bs Hl|bs Hl|bs Hl|bs Hl|bs Hl|bs Hl|c v Hv];
    cbn [app] in Hq; injection Hq as <- Hq.
  - symmetry in Hq. apply app_eq_nil in Hq as [_ ?]. done.
  - pose proof (ParseAny_tag_array _ q Htag) as Harr.
    destruct q as [|c q]; [by exists Nil, EOF; split; [injection Harr|left]|].
    cbn [app] in Hq. injection Hq as <- Hq.
    unfold ParseArray in Harr. rewrite ReadFull_1_cons in Harr.
    cbn [at_ nth] in Harr. rewrite Hcnt in Harr.
    destruct (ParseArray_loop_truncated (λ r, Some (ParseAny r)) ps vs)
      with (q := q) (t := t) (i := 0)
           (arr := replicate (length vs) Nil) as (arr' & e & Hloop & He);
      [|done..|].
    + apply Forall2_wire_bounded; [done|]. intros p' v' Hl' Hw'. split.
      * intros s. f_equal. by apply wire_decodes.
      * intros q' t' Hq' Ht'.
        destruct (IH p' v') with (q := q') (t := t') as (v1 & e1 & -> & He1);
          [cbn in Hn; lia|done..|]. by eexists _, _.
    + pose proof (eq_trans (eq_sym Harr) Hloop) as H'. injection H' as ->.
      by eexists _, _.
  - rewrite Hcode. destruct q as [|c q]; [by exists (Str ""), EOF; split; [|left]|].
    cbn [app] in Hq. injection Hq as <- Hq.
    destruct (ParseCode_short x06 q) as (e & -> & He).
    { change (N.to_nat (byte_val x06)) with 6. rewrite <- Hl, Hq, length_app.
      destruct t; [done|]. cbn. lia. }
    by eexists _, _.
  - rewrite (ParseAny_tag_text _ _ Htag).
    destruct q as [|c q]; [by exists (Str ""), EOF; split; [|left]|].
    cbn [app] in Hq. injection Hq as <- Hq.
    destruct (ParseString_short k q) as (e & -> & He).
    { rewrite Hl, Hq, length_app. destruct t; [done|]. cbn. lia. }
    by eexists _, _.
  - rewrite Hi8. by eapply int_short.
  - rewrite Hi16. by eapply int_short.
  - rewrite Hu8. by eapply int_short.
  - rewrite Hu16. by eapply int_short.
  - rewrite Hi32. by eapply int_short.
  - rewrite Hu32. by eapply int_short.
  - rewrite Henum. destruct q as [|c' q]; [by exists Nil, EOF; split; [|left]|].
    cbn [app] in Hq. injection Hq as <- Hq.
    symmetry in Hq. apply app_eq_nil in Hq as [_ ?]. done.
Qed.

(** X7.  A layout cut short, at any byte, is never taken for a value nor
    for another error: [ParseAny] fails on it with io.EOF or
    io.ErrUnexpectedEOF and leaves the reader empty, and [ParseFlattened]
    gives no map and the same error. *)
Theorem truncated_layout_read_error p v q t :
  wire p v → p = q ++ t → t ≠ [] →
  ∃ v' e, (e = EOF ∨ e = ErrUnexpectedEOF)
          ∧ ParseAny q = (v', Some e, [])
          ∧ ParseFlattened q = (None, Some e, []).
Proof.
  intros Hw Hp Ht.
  destruct (wire_truncated_bounded (length p) p v) with (q := q) (t := t)
    as (v' & e & HP & He); [done..|].
  exists v', e. split_and!; [done..|].
  unfold ParseFlattened. rewrite HP. by destruct v'.
Qed.

Lemma truncated_layout_read_error_witness :
  ∃ v' e, (e = EOF ∨ e = ErrUnexpectedEOF)
          ∧ ParseAny (bytes [1; 5; 17; 1; 17; 2]%N) = (v', Some e, [])
          ∧ ParseFlattened (bytes [1; 5; 17; 1; 17; 2]%N) = (None, Some e, []).
Proof.
  apply (truncated_layout_read_error
           (bytes [1; 5; 17; 1; 17; 2; 17; 3; 17; 4; 17; 5]%N)
           (Slice [Uint8 1; Uint8 2; Uint8 3; Uint8 4; Uint8 5])
           (bytes [1; 5; 17; 1; 17; 2]%N)
           (bytes [17; 3; 17; 4; 17; 5]%N)); [|done..].
  apply (wire_seq x01 x05 (map bytes [[17; 1]; [17; 2]; [17; 3]; [17; 4]; [17; 5]]%N));
    [by left|done|].
  repeat constructor; by apply (wire_uint8 [_]).
Defined.

(** ** Arrays *)

Lemma ParseArray_loop_length elem n i arr r v e r' :
  ParseArray_loop elem n i arr r = Some (v, e, r') →
  ∃ arr', v = Slice arr' ∧ length arr' = length arr.
Proof.
  revert i arr r. induction n as [|n IH]; intros i arr r; cbn.
  - intros [= <- _ _]. eauto.
  - destruct (elem r) as [[[v1 [e1|]] r1]|]; [| |done].
    + intros [= <- _ _]. eexists. split; [done|]. apply length_insert.
    + intros H. apply IH in H as (arr' & -> & Hl). rewrite length_insert in Hl.
      eauto.
Qed.

(** X8.  Whenever [ParseAny] has read the tag and the count of an array,
    what it returns is a slice with as many entries as the count says, also
    when a member failed. *)
Theorem array_length_is_count tag cnt r v e r' :
  byte_val tag = 1%N ∨ byte_val tag = 2%N →
  ParseAny (tag :: cnt :: r) = (v, e, r') →
  ∃ arr, v = Slice arr ∧ length arr = N.to_nat (byte_val cnt).
Proof.
  intros Htag H. pose proof (ParseAny_tag_array _ (cnt :: r) Htag) as Harr.
  rewrite H in Harr. unfold ParseArray in Harr.
  rewrite ReadFull_1_cons in Harr. cbn [at_ nth] in Harr.
  apply ParseArray_loop_length in Harr as (arr & -> & Hl).
  rewrite length_replicate in Hl. eauto.
Qed.

Lemma array_length_is_count_witness :
  ∃ arr, Slice [Uint8 1; Uint8 0; Nil] = Slice arr ∧ length arr = 3.
Proof.
  apply (array_length_is_count x02 x03 (bytes [17; 1; 17]%N) _
           (Some EOF) []); [by right|].
  vm_compute. reflexivity.
Defined.

Lemma ParseArray_loop_aborts elem ps vs q v e r' :
  Forall2 (λ p v, ∀ s, elem (p ++ s) = Some (v, None, s)) ps vs →
  elem q = Some (v, Some e, r') →
  ∀ n i arr, length arr = i + length vs + S n →
    ParseArray_loop elem (length vs + S n) i arr (concat ps ++ q)
    = Some (Slice (take i arr ++ vs ++ v :: drop (S (i + length vs)) arr),
            Some e, r').
Proof.
  intros Hall Hq. induction Hall as [|p v0 ps vs Hp _ IH]; intros n i arr Hl;
    cbn [concat length app Nat.add ParseArray_loop] in *.
  - rewrite Hq, Nat.add_0_r. by rewrite (insert_take_drop arr i v) by lia.
  - rewrite <- app_assoc, Hp, IH by (rewrite length_insert; lia).
    rewrite (take_S_r _ _ v0) by (apply list_lookup_insert_eq; lia).
    rewrite take_insert_ge by lia. rewrite <- app_assoc. cbn [app].
    rewrite drop_insert_lt by lia.
    by replace (S (S i + length vs)) with (S (i + S (length vs))) by lia.
Qed.

(** X9.  An array stops at its first failing member: after some members
    that decode, a member that fails makes the array fail with the same
    error and the reader where that member left it; the slice returned
    holds the decoded members, what the failing member returned, and [nil]
    for the members not reached. *)
Theorem array_aborts_at_failing_member tag cnt ps vs q v e r' :
  byte_val tag = 1%N ∨ byte_val tag = 2%N →
  Forall2 wire ps vs →
  length vs < N.to_nat (byte_val cnt) →
  ParseAny q = (v, Some e, r') →
  ParseAny (tag :: cnt :: concat ps ++ q)
  = (Slice (vs ++ v
              :: replicate (N.to_nat (byte_val cnt) - S (length vs)) Nil),
     Some e, r').
Proof.
  intros Htag Hws Hlt Hq.
  pose proof (ParseAny_tag_array _ (cnt :: concat ps ++ q) Htag) as Harr.
  unfold ParseArray in Harr. rewrite ReadFull_1_cons in Harr.
  cbn [at_ nth] in Harr.
  replace (N.to_nat (byte_val cnt))
    with (length vs + S (N.to_nat (byte_val cnt) - S (length vs))) in Harr at 1
    by lia.
  erewrite (ParseArray_loop_aborts _ ps vs q v e r') in Harr.
  - injection Harr as <-. cbn [take app]. do 3 f_equal.
    by rewrite drop_replicate.
  - apply Forall2_wire_bounded; [done|]. intros p' v' _ Hw' s.
    f_equal. by apply wire_decodes.
  - by rewrite Hq.
  - rewrite length_replicate. lia.
Qed.

Lemma array_aborts_at_failing_member_witness :
  ParseAny (bytes [2; 4; 17; 7; 16; 1; 2; 22; 31; 17; 9]%N)
  = (Slice [Uint8 7; Int16 258; Str ""; Nil],
     Some (Errorf "unknown enum index 31"), bytes [17; 9]%N).
Proof.
  apply (array_aborts_at_failing_member x02 x04
           [bytes [17; 7]%N; bytes [16; 1; 2]%N] [Uint8 7; Int16 258]
           (bytes [22; 31; 17; 9]%N)).
  - by right.
  - constructor; [exact (wire_uint8 [x07] eq_refl)|].
    constructor; [exact (wire_int16 [x01; x02] eq_refl)|constructor].
  - cbn. lia.
  - vm_compute. reflexivity.
Defined.

(** ** The errors and the members of [ParseFlattened] *)

Lemma flatten_loop_error arr result m e :
  flatten_loop arr result = (m, Some e) → flatten_error e.
Proof.
  unfold flatten_error.
  revert result. induction arr as [|item arr IH]; intros result;
    cbn [flatten_loop]; [done|].
  destruct item as [|sub| | | | | | |]; try (intros [= _ <-]; tauto).
  destruct (length sub <? 2); [intros [= _ <-]; tauto|].
  destruct (nth 0 sub Nil); try (intros [= _ <-]; tauto). apply IH.
Qed.

(** X10.  An error of [ParseFlattened] is either the error of [ParseAny],
    handed on unchanged with the reader as [ParseAny] left it, or, after a
    decode without error, one of the four errors of the flattening; the
    flattening reads nothing. *)
Theorem ParseFlattened_error_kinds r m e r' :
  ParseFlattened r = (m, Some e, r') →
  (decode_error e ∧ ∃ v, ParseAny r = (v, Some e, r'))
  ∨ (flatten_error e ∧ ∃ v, ParseAny r = (v, None, r')).
Proof.
  unfold ParseFlattened.
  destruct (ParseAny r) as [[v [e1|]] r1] eqn:HP.
  - intros H. assert (e1 = e ∧ r1 = r') as [-> ->]
      by (by destruct v; injection H as _ -> ->).
    left. split; [|by eexists].
    pose proof (ParseAny_fuel_spec r) as Hf. rewrite HP in Hf.
    by eapply ParseAny_fuel_error.
  - intros H. right. assert (r1 = r' ∧ flatten_error e) as [-> He].
    { destruct v as [|arr| | | | | | |];
        try (injection H as _ <- <-; split; [done|unfold flatten_error; tauto]).
      destruct (flatten_loop arr ∅) as [m' e'] eqn:Hf.
      injection H as -> -> ->. split; [done|by eapply flatten_loop_error]. }
    split; [done|by eexists].
Qed.

Lemma ParseFlattened_error_kinds_witness :
  (decode_error (Errorf "not a code")
   ∧ ∃ v, ParseAny (bytes [1; 1; 2; 2; 9; 1; 7]%N)
          = (v, Some (Errorf "not a code"), []))
  ∨ (flatten_error (Errorf "not a code")
     ∧ ∃ v, ParseAny (bytes [1; 1; 2; 2; 9; 1; 7]%N) = (v, None, [])).
Proof.
  apply (ParseFlattened_error_kinds (bytes [1; 1; 2; 2; 9; 1; 7]%N) None).
  vm_compute. reflexivity.
Defined.

(** X11.  The loop of [ParseFlattened] looks at the first two members of
    each member only: cutting every member down to its first two changes
    neither the map nor the error. *)
Theorem flatten_ignores_members_after_second arr result :
  flatten_loop (map first_two arr) result = flatten_loop arr result.
Proof.
  revert result. induction arr as [|item arr IH]; intros result; [done|].
  cbn [map flatten_loop].
  destruct item as [|sub| | | | | | |]; try done.
  destruct sub as [|key [|value sub]]; try done.
  cbn. destruct key; first [done|apply IH].
Qed.

(** ** The values of a flattened record *)

Lemma assign_all_lookup result l k v :
  assign_all result l !! k = Some v → (k, v) ∈ l ∨ result !! k = Some v.
Proof.
  revert result. induction l as [|[k' v'] l IH]; intros result; [by right|].
  change (assign_all result ((k', v') :: l))
    with (assign_all (<[k':=v']> result) l).
  intros H. apply IH in H as [H|H]; [left; by right|].
  destruct (decide (k' = k)) as [->|Hne].
  - rewrite lookup_insert_eq in H. injection H as ->. left. by left.
  - rewrite lookup_insert_ne in H by done. by right.
Qed.

Lemma in_range_nth sub i : Forall in_range sub → in_range (nth i sub Nil).
Proof.
  intros H. revert i. induction H as [|x sub Hx _ IH]; intros [|i]; cbn; auto.
Qed.

Lemma entry_in_range item : in_range item → in_range (entry item).2.
Proof.
  destruct item as [|sub| | | | | | |]; try done.
  intros H. apply in_range_Slice in H. cbn. by apply in_range_nth.
Qed.

Lemma ParseAny_in_range r v e r' : ParseAny r = (v, e, r') → in_range v.
Proof.
  intros H. pose proof (ParseAny_fuel_spec r) as Hf. rewrite H in Hf.
  by eapply ParseAny_fuel_in_range.
Qed.

Lemma ParseFlattened_in_range r m e r' k v :
  ParseFlattened r = (Some m, e, r') → m !! k = Some v → in_range v.
Proof.
  pose proof (ParseAny_in_range r) as HP. intros HF Hk.
  destruct e as [e|]; [by apply ParseFlattened_error_no_map in HF|].
  apply ParseFlattened_success in HF as (arr & HA & Hf).
  apply HP, in_range_Slice in HA.
  apply flatten_loop_success in Hf as [Hf _].
  destruct (Hf eq_refl) as [_ [= ->]].
  apply assign_all_lookup in Hk as [Hk|Hk]; [|done].
  unfold entries in Hk. apply list_elem_of_fmap in Hk as (item & Hi & Hin).
  rewrite Forall_forall in HA. apply HA, entry_in_range in Hin.
  by rewrite <- Hi in Hin.
Qed.

(** X4.  Every integer in what [ParseAny] returns, with or without an
    error and at any depth, lies in the range of its Go type; and so does
    every value of a map that [ParseFlattened] returns. *)
Theorem decoded_integers_in_range r :
  (∀ v e r', ParseAny r = (v, e, r') → in_range v)
  ∧ (∀ m e r' k v,
       ParseFlattened r = (Some m, e, r') → m !! k = Some v → in_range v).
Proof.
  split; [apply ParseAny_in_range|apply ParseFlattened_in_range].
Qed.

(** ** [anytoint] *)

Lemma int_of_fits intSize x :
  intSize = 32%Z ∨ intSize = 64%Z →
  (- 2 ^ 31 ≤ x < 2 ^ 31)%Z → int_of intSize x = x.
Proof.
  unfold int_of, to_signed. intros [-> | ->] Hx.
  - change (2 ^ (32 - 1))%Z with 2147483648%Z.
    change (2 ^ 32)%Z with 4294967296%Z.
    change (2 ^ 31)%Z with 2147483648%Z in Hx.
    destruct (2147483648 <=? x mod 4294967296)%Z eqn:H;
      Z.div_mod_to_equations; lia.
  - change (2 ^ (64 - 1))%Z with 9223372036854775808%Z.
    change (2 ^ 64)%Z with 18446744073709551616%Z.
    change (2 ^ 31)%Z with 2147483648%Z in Hx.
    destruct (9223372036854775808 <=? x mod 18446744073709551616)%Z eqn:H;
      Z.div_mod_to_equations; lia.
Qed.

Lemma int_of_uint32 intSize x :
  intSize = 32%Z ∨ intSize = 64%Z →
  (0 ≤ x < 2 ^ 32)%Z →
  int_of intSize x
  = (if (intSize =? 32)%Z && (2 ^ 31 <=? x)%Z then x - 2 ^ 32 else x)%Z.
Proof.
  unfold int_of, to_signed. intros [-> | ->] Hx.
  - change (2 ^ (32 - 1))%Z with 2147483648%Z.
    change (2 ^ 32)%Z with 4294967296%Z in *.
    change (2 ^ 31)%Z with 2147483648%Z. cbn [Z.eqb Pos.eqb andb].
    rewrite Z.mod_small by lia. done.
  - change (2 ^ (64 - 1))%Z with 9223372036854775808%Z.
    change (2 ^ 64)%Z with 18446744073709551616%Z.
    change (2 ^ 32)%Z with 4294967296%Z in *. cbn [Z.eqb Pos.eqb andb].
    rewrite Z.mod_small by lia.
    destruct (9223372036854775808 <=? x)%Z eqn:H; lia.
Qed.

Lemma anytoint_in_range intSize v :
  intSize = 32%Z ∨ intSize = 64%Z →
  in_range v →
  match v with
  | Int8 x | Int16 x | Int32 x | Uint8 x | Uint16 x =>
      anytoint intSize v = (x, None)
  | Uint32 x =>
      anytoint intSize v
      = ((if (intSize =? 32)%Z && (2 ^ 31 <=? x)%Z then x - 2 ^ 32 else x)%Z,
         None)
  | Nil | Str _ | Slice _ =>
      anytoint intSize v = (0%Z, Some (Errorf "not a number"))
  end
  ∧ (- 2 ^ 31 ≤ fst (anytoint intSize v) < 2 ^ 32)%Z.
Proof.
  intros Hs Hv. destruct v; cbn [anytoint fst in_range] in *; try (split; [done|lia]).
  1-5: rewrite int_of_fits by (done || lia); split; [done|lia].
  rewrite int_of_uint32 by done. split; [done|].
  destruct ((intSize =? 32)%Z && (2 ^ 31 <=? i)%Z) eqn:H; [|lia].
  apply andb_true_iff in H as [_ H]. lia.
Qed.

(** X12.  On a value with its integers in range, [anytoint] fails with
    "not a number" on [nil], strings and slices and returns the integer
    unchanged otherwise, but for a [uint32] of 2^31 or more where [int] has
    32 bits, which wraps around.  The result is small enough for its
    conversion to [float64] to be exact. *)
Theorem anytoint_decoded_values intSize v :
  intSize = 32%Z ∨ intSize = 64%Z →
  in_range v →
  match v with
  | Int8 x | Int16 x | Int32 x | Uint8 x | Uint16 x =>
      anytoint intSize v = (x, None)
  | Uint32 x =>
      anytoint intSize v
      = ((if (intSize =? 32)%Z && (2 ^ 31 <=? x)%Z then x - 2 ^ 32 else x)%Z,
         None)
  | Nil | Str _ | Slice _ =>
      anytoint intSize v = (0%Z, Some (Errorf "not a number"))
  end
  ∧ (- 2 ^ 31 ≤ fst (anytoint intSize v) < 2 ^ 32)%Z.
Proof. apply anytoint_in_range. Qed.

Lemma anytoint_decoded_values_witness :
  anytoint 64 (Uint32 4294967295) = (4294967295%Z, None)
  ∧ anytoint 32 (Uint32 4294967295) = ((-1)%Z, None)
  ∧ anytoint 32 (Int16 (-5)) = ((-5)%Z, None).
Proof.
  split_and!.
  - apply (anytoint_decoded_values 64 (Uint32 4294967295)); [by right|cbn; lia].
  - apply (anytoint_decoded_values 32 (Uint32 4294967295)); [by left|cbn; lia].
  - apply (anytoint_decoded_values 32 (Int16 (-5))); [by left|cbn; lia].
Defined.

(** ** The consumer *)

Lemma consume_key_other intSize packet g k k' :
  k ≠ k' → consume_key intSize packet g k' !! k = g !! k.
Proof.
  intros Hne. unfold consume_key. destruct (g !! k'); [|done].
  destruct (anytoint _ _) as [val [e|]]; [done|].
  by rewrite lookup_insert_ne.
Qed.

Lemma consume_key_same intSize packet g k :
  consume_key intSize packet g k !! k
  = match g !! k with
    | None => None
    | Some old =>
        match anytoint intSize (default Nil (packet !! k)) with
        | (val, None) => Some val
        | (_, Some _) => Some old
        end
    end.
Proof.
  unfold consume_key. destruct (g !! k) as [old|] eqn:Hk; [|done].
  destruct (anytoint _ _) as [val [e|]]; [done|]. by rewrite lookup_insert_eq.
Qed.

Lemma consume_packet_notin intSize order packet g k :
  k ∉ order → consume_packet intSize order packet g !! k = g !! k.
Proof.
  unfold consume_packet. revert g.
  induction order as [|k' order IH]; intros g Hk; [done|].
  apply not_elem_of_cons in Hk as [Hne Hk]. cbn.
  rewrite IH by done. by apply consume_key_other.
Qed.

Lemma consume_packet_in intSize order packet g k :
  NoDup order → k ∈ order →
  consume_packet intSize order packet g !! k
  = consume_key intSize packet g k !! k.
Proof.
  unfold consume_packet. intros Hnd. revert g.
  induction Hnd as [|k' order Hk' _ IH]; intros g Hk; [by apply elem_of_nil in Hk|].
  cbn. destruct (decide (k = k')) as [->|Hne].
  - by apply consume_packet_notin.
  - apply elem_of_cons in Hk as [?|Hk]; [done|]. rewrite IH by done.
    rewrite !consume_key_same, consume_key_other by done. done.
Qed.

Lemma consume_packet_spec intSize order (packet : gmap string any)
    (g : gmap string Z) k :
  NoDup order → (∀ k, k ∈ order ↔ is_Some (packet !! k)) →
  consume_packet intSize order packet g !! k
  = match g !! k, packet !! k with
    | Some old, Some v =>
        match anytoint intSize v with
        | (val, None) => Some val
        | (_, Some _) => Some old
        end
    | old, _ => old
    end.
Proof.
  intros Hnd Hkeys. destruct (packet !! k) as [v|] eqn:Hk.
  - rewrite consume_packet_in by (done || by apply Hkeys; rewrite Hk).
    rewrite consume_key_same, Hk. done.
  - rewrite consume_packet_notin.
    + by destruct (g !! k).
    + intros Hin. apply Hkeys in Hin as [? ?]. congruence.
Qed.

(** X13.  Whatever the order in which the keys of the packet are visited,
    the consumer sets the gauge of each key that has one and whose value
    [anytoint] converts; a key without a gauge makes none, a value that is
    not a number leaves its gauge as it was, and the other gauges are
    untouched. *)
Theorem consume_packet_lookup intSize order (packet : gmap string any)
    (g : gmap string Z) k :
  NoDup order → (∀ k, k ∈ order ↔ is_Some (packet !! k)) →
  consume_packet intSize order packet g !! k
  = match g !! k, packet !! k with
    | Some old, Some v =>
        match anytoint intSize v with
        | (val, None) => Some val
        | (_, Some _) => Some old
        end
    | old, _ => old
    end.
Proof. apply consume_packet_spec. Qed.

Lemma consume_packet_lookup_witness :
  consume_packet 64 ["1-0:32.7.0.255"%string]
    {[ "1-0:32.7.0.255"%string := Uint16 2500 ]} gauges
    !! "1-0:32.7.0.255"%string
  = Some 2500%Z
  ∧ consume_packet 64 ["1-0:32.7.0.255"%string]
      {[ "1-0:32.7.0.255"%string := Uint16 2500 ]} gauges
      !! "9-9:9.9.9.255"%string
    = None.
Proof.
  assert (∀ k, k ∈ ["1-0:32.7.0.255"%string]
               ↔ is_Some (({[ "1-0:32.7.0.255"%string := Uint16 2500 ]}
                             : gmap string any) !! k)) as Hkeys.
  { intros k. rewrite list_elem_of_singleton. split.
    - intros ->. eexists. apply lookup_singleton_eq.
    - intros [v Hv]. by apply lookup_singleton_Some in Hv as [-> _]. }
  assert (NoDup ["1-0:32.7.0.255"%string]) as Hnd
    by (apply NoDup_singleton).
  split.
  - rewrite (consume_packet_lookup _ _ _ _ _ Hnd Hkeys). vm_compute. reflexivity.
  - rewrite (consume_packet_lookup _ _ _ _ _ Hnd Hkeys). vm_compute. reflexivity.
Defined.

(** ** The counters of the producer *)

Lemma producer_run_cons read reads st :
  producer_run (read :: reads) st
  = producer_run reads (producer_iteration read.1 read.2 st).
Proof. by destruct read. Qed.

Lemma nil_read_cases buf st :
  (∃ m r', ParseFlattened (drop 17 buf) = (m, None, r')
           ∧ sent (hdlc_nil, buf) = Some m
           ∧ parse_failed (hdlc_nil, buf) = false
           ∧ producer_iteration hdlc_nil buf st
             = mkPipeline (S (msgCounter st)) (resyncCounter st)
                 (abortCounter st) (parseErrorCounter st) (packets st ++ [m]))
  ∨ (∃ m e r', ParseFlattened (drop 17 buf) = (m, Some e, r')
               ∧ sent (hdlc_nil, buf) = None
               ∧ parse_failed (hdlc_nil, buf) = true
               ∧ producer_iteration hdlc_nil buf st
                 = mkPipeline (msgCounter st) (resyncCounter st)
                     (abortCounter st) (S (parseErrorCounter st)) (packets st)).
Proof.
  unfold sent, parse_failed, producer_iteration.
  destruct (ParseFlattened (drop 17 buf)) as [[m [e|]] r'].
  - right. by eexists _, _, _.
  - left. by eexists _, _.
Qed.

Lemma producer_run_from reads st :
  let st' := producer_run reads st in
  packets st' = packets st ++ omap sent reads
  ∧ msgCounter st' = msgCounter st + length (omap sent reads)
  ∧ resyncCounter st'
    = resyncCounter st + length (List.filter (outcome_is hdlc_ErrResynced) reads)
  ∧ abortCounter st'
    = abortCounter st + length (List.filter (outcome_is hdlc_ErrAbort) reads)
  ∧ parseErrorCounter st'
    = parseErrorCounter st + length (List.filter parse_failed reads).
Proof.
  revert st. induction reads as [|[err buf] reads IH]; intros st.
  { cbn. rewrite app_nil_r. split_and!; (done || lia). }
  cbn zeta. rewrite producer_run_cons. cbn [fst snd].
  destruct (IH (producer_iteration err buf st)) as (H1 & H2 & H3 & H4 & H5).
  rewrite H1, H2, H3, H4, H5. clear IH H1 H2 H3 H4 H5.
  cbn [omap list_omap List.filter].
  destruct err.
  - change (outcome_is hdlc_ErrResynced (hdlc_nil, buf)) with false.
    change (outcome_is hdlc_ErrAbort (hdlc_nil, buf)) with false.
    destruct (nil_read_cases buf st)
      as [(m & r' & _ & -> & -> & ->)|(m & e & r' & _ & -> & -> & ->)];
      cbn; rewrite <- ?app_assoc; split_and!; (done || lia).
  - cbn. split_and!; (done || lia).
  - cbn. split_and!; (done || lia).
  - cbn. split_and!; (done || lia).
Qed.

Lemma reads_partition reads :
  length (omap sent reads) + length (List.filter (outcome_is hdlc_ErrResynced) reads)
  + length (List.filter (outcome_is hdlc_ErrAbort) reads)
  + length (List.filter parse_failed reads)
  + length (List.filter (outcome_is hdlc_other) reads)
  = length reads.
Proof.
  induction reads as [|[err buf] reads IH]; [done|].
  cbn [omap list_omap List.filter length].
  destruct err.
  - change (outcome_is hdlc_ErrResynced (hdlc_nil, buf)) with false.
    change (outcome_is hdlc_ErrAbort (hdlc_nil, buf)) with false.
    change (outcome_is hdlc_other (hdlc_nil, buf)) with false.
    destruct (nil_read_cases buf pipeline_start)
      as [(m & r' & _ & -> & -> & _)|(m & e & r' & _ & -> & -> & _)];
      cbn [length]; lia.
  - cbn. lia.
  - cbn. lia.
  - cbn. lia.
Qed.

(** X14.  After any run of the producer from its start, the channel holds
    the maps of the frames that parsed, in the order of the frames; the
    four counters count them, the resynchronisations, the aborts and the
    frames that did not parse; a read with any other error is counted
    nowhere and sends nothing. *)
Theorem producer_counters reads :
  let st := producer_run reads pipeline_start in
  packets st = omap sent reads
  ∧ msgCounter st = length (packets st)
  ∧ resyncCounter st
    = length (List.filter (outcome_is hdlc_ErrResynced) reads)
  ∧ abortCounter st = length (List.filter (outcome_is hdlc_ErrAbort) reads)
  ∧ parseErrorCounter st = length (List.filter parse_failed reads)
  ∧ msgCounter st + resyncCounter st + abortCounter st + parseErrorCounter st
    + length (List.filter (outcome_is hdlc_other) reads)
    = length reads.
Proof.
  destruct (producer_run_from reads pipeline_start) as (H1 & H2 & H3 & H4 & H5).
  cbn zeta. cbn in H1, H2, H3, H4, H5. rewrite H1, H2, H3, H4, H5.
  split_and!; try done. apply reads_partition.
Qed.

(** ** From a frame to the gauges *)

Lemma gauges_lookup k :
  gauges !! k = if decide (k ∈ gauge_keys) then Some 0%Z else None.
Proof.
  unfold gauges. destruct (decide (k ∈ gauge_keys)) as [Hin|Hout].
  - apply elem_of_list_to_map_1'.
    + intros y Hy. apply list_elem_of_fmap in Hy as (k' & [= _ ->] & _). done.
    + apply list_elem_of_fmap. by exists k.
  - apply not_elem_of_list_to_map_1.
    by rewrite <- list_fmap_compose, list_fmap_id.
Qed.

(** X15.  From a frame to the gauges: when the payload of a frame (after
    its 17 bytes of header) flattens to a map, the producer sends that map,
    and the consumer leaves each gauge at the integer that the map binds to
    its key (wrapped as in X12), at zero when the key is absent or bound to
    no number; no gauge appears for another key. *)
Theorem frame_sets_gauges intSize buf m r' order k :
  intSize = 32%Z ∨ intSize = 64%Z →
  ParseFlattened (drop 17 buf) = (Some m, None, r') →
  NoDup order → (∀ k, k ∈ order ↔ is_Some (m !! k)) →
  let st := producer_iteration hdlc_nil buf pipeline_start in
  let g := consume_packet intSize order m gauges in
  packets st = [Some m]
  ∧ (k ∉ gauge_keys → g !! k = None)
  ∧ (k ∈ gauge_keys →
     g !! k
     = Some match m !! k with
            | Some (Int8 x) | Some (Int16 x) | Some (Int32 x)
            | Some (Uint8 x) | Some (Uint16 x) => x
            | Some (Uint32 x) =>
                if (intSize =? 32)%Z && (2 ^ 31 <=? x)%Z
                then (x - 2 ^ 32)%Z else x
            | _ => 0%Z
            end).
Proof.
  intros Hs HF Hnd Hkeys st g. subst st g. split_and!.
  - unfold producer_iteration. by rewrite HF.
  - intros Hk. rewrite consume_packet_spec, gauges_lookup by done.
    by rewrite decide_False.
  - intros Hk. rewrite consume_packet_spec, gauges_lookup by done.
    rewrite decide_True by done. destruct (m !! k) as [v|] eqn:Hv; [|done].
    pose proof (ParseFlattened_in_range _ _ _ _ _ _ HF Hv) as Hr.
    destruct (anytoint_in_range intSize v Hs Hr) as [Ha _].
    by destruct v; rewrite Ha.
Qed.

Lemma frame_sets_gauges_witness :
  consume_packet 64 ["1-0:32.7.0.255"%string]
    {[ "1-0:32.7.0.255"%string := Uint16 2500 ]} gauges
    !! "1-0:32.7.0.255"%string
  = Some 2500%Z.
Proof.
  destruct (frame_sets_gauges 64
              (replicate 17 x00
               ++ bytes [1; 1; 2; 3; 9; 6; 1; 0; 32; 7; 0; 255; 18; 9; 196;
                         1; 2; 17; 255; 22; 35]%N)
              {[ "1-0:32.7.0.255"%string := Uint16 2500 ]} []
              ["1-0:32.7.0.255"%string] "1-0:32.7.0.255"%string)
    as (_ & _ & H).
  - by right.
  - vm_compute. reflexivity.
  - apply NoDup_singleton.
  - intros k. rewrite list_elem_of_singleton. split.
    + intros ->. eexists. apply lookup_singleton_eq.
    + intros [v Hv]. by apply lookup_singleton_Some in Hv as [-> _].
  - rewrite H; [vm_compute; reflexivity|].
    apply (bool_decide_unpack _). vm_compute. exact I.
Defined.
